(** * End-to-end frame encryption worker (endtoend-encryption/js/worker.js)

    A shallow embedding of the worker that encrypts and decrypts encoded
    media frames with AES-GCM through the Web Crypto API, and the properties
    of its frame cipher, its clear-header policy, its key bookkeeping and its
    asynchronous frame pipeline.

    JavaScript values are modelled as follows.
    - An [ArrayBuffer] or [Uint8Array] is a [list byte]; lengths and offsets
      are [Z] (they are far below 2^53, where JS numbers are exact integers).
    - [undefined] where a number is expected is [None : option Z].
    - A promise of the Web Crypto API is an entry of the worker's list of
      operations in flight; it settles at a later event, in any order.
    - The AES-GCM primitive itself ([crypto.subtle.encrypt], [decrypt]) is a
      parameter of the development: it is the browser's, not the worker's. *)

From Stdlib Require Import ZArith Lia String Ascii Bool Strings.Byte.
From stdpp Require Import base option list pretty.

Local Open Scope Z_scope.

(** ** ArrayBuffer, Uint8Array, DataView *)

Abbreviation bytes := (list byte).

Definition byteLength (buf : bytes) : Z := Z.of_nat (length buf).

(** [ToIntegerOrInfinity]: [undefined] converts to NaN and then to 0. *)
Definition ToIntegerOrInfinity (v : option Z) : Z :=
  match v with
  | Some n => n
  | None => 0
  end.

(** A relative index of [slice]: negative indices count from the end, and
    every index is clamped to the buffer. *)
Definition relative_index (len rel : Z) : Z :=
  if rel <? 0 then Z.max (len + rel) 0 else Z.min rel len.

(** [ArrayBuffer.prototype.slice(start, end)]. An [undefined] (or absent)
    [end] is the length of the buffer. *)
Definition slice (buf : bytes) (start end_ : option Z) : bytes :=
  let len := byteLength buf in
  let first := relative_index len (ToIntegerOrInfinity start) in
  let final :=
    match end_ with
    | None => len
    | Some e => relative_index len e
    end in
  let newLen := Z.max (final - first) 0 in
  take (Z.to_nat newLen) (drop (Z.to_nat first) buf).

(** [new Uint8Array(n)]: [n] zero bytes. *)
Definition Uint8Array_new (n : Z) : bytes := replicate (Z.to_nat n) x00.

(** [target.set(source, offset)]; [None] is the RangeError raised when the
    source does not fit. *)
Definition Uint8Array_set (target source : bytes) (offset : Z) : option bytes :=
  if (0 <=? offset) && (offset + byteLength source <=? byteLength target)
  then Some (take (Z.to_nat offset) target ++ source
             ++ drop (Z.to_nat offset + length source) target)
  else None.

(** [crypto.getRandomValues(arr)] fills [arr] with random bytes: the length
    is the array's, the contents are the environment's. *)
Definition getRandomValues (entropy : nat -> byte) (arr : bytes) : bytes :=
  map entropy (seq 0 (length arr)).

Definition be_value (bs : bytes) : Z :=
  fold_left (fun acc b => acc * 256 + Z.of_N (Byte.to_N b)) bs 0.

(** [view.getUint32(byteOffset)] (big-endian); [None] is the RangeError of
    a read outside the buffer. *)
Definition getUint32 (buf : bytes) (byteOffset : Z) : option Z :=
  if (0 <=? byteOffset) && (byteOffset + 4 <=? byteLength buf)
  then Some (be_value (take 4 (drop (Z.to_nat byteOffset) buf)))
  else None.

(** ** Encoded frames *)

(** The values of [RTCEncodedVideoFrame.type]. An audio frame has no [type]
    property at all. *)
Inductive RTCEncodedVideoFrameType := type_empty | type_key | type_delta.

Record EncodedFrame := {
  data : bytes;
  type : option RTCEncodedVideoFrameType;
  timestamp : Z;
  synchronizationSource : Z
}.

(** [encodedFrame.data = newData.buffer] *)
Definition set_data (f : EncodedFrame) (d : bytes) : EncodedFrame :=
  {| data := d; type := type f; timestamp := timestamp f;
     synchronizationSource := synchronizationSource f |}.

(** What a frame carries besides its payload. *)
Definition metadata (f : EncodedFrame) : option RTCEncodedVideoFrameType * Z * Z :=
  (type f, timestamp f, synchronizationSource f).

(** ** Clear-header policy *)

(** The property key that [obj[encodedFrame.type]] looks up. *)
Definition property_key (t : option RTCEncodedVideoFrameType) : string :=
  match t with
  | None => "undefined"
  | Some type_key => "key"
  | Some type_delta => "delta"
  | Some type_empty => "empty"
  end.

Definition frameTypeToCryptoOffset : list (string * Z) :=
  [("key"%string, 10); ("delta"%string, 3); ("undefined"%string, 1)].

(** Property access on an object literal; [None] is [undefined]. *)
Fixpoint get_property (o : list (string * Z)) (k : string) : option Z :=
  match o with
  | [] => None
  | (k', v) :: o' => if String.eqb k' k then Some v else get_property o' k
  end.

(** [useCryptoOffset ? frameTypeToCryptoOffset[encodedFrame.type] : 0] *)
Definition cryptoOffset (useCryptoOffset : bool) (f : EncodedFrame) : option Z :=
  if useCryptoOffset
  then get_property frameTypeToCryptoOffset (property_key (type f))
  else Some 0.

(** ** The frame dump *)

(** The digits of [Number.prototype.toString(16)]. *)
Definition hex_digit (n : N) : ascii :=
  match String.get (N.to_nat n) "0123456789abcdef" with
  | Some c => c
  | None => "0"%char
  end.

(** [data[j].toString(16)] for an element of a [Uint8Array]: no leading
    zero. *)
Definition toString16 (b : byte) : string :=
  let n := Byte.to_N b in
  if (n <? 16)%N
  then String (hex_digit n) EmptyString
  else String (hex_digit (n / 16)) (String (hex_digit (n mod 16)) EmptyString).

(** The loop of [dump] from index [j] on, [data] being the bytes from that
    index on and [bytes] the string built so far. *)
Fixpoint dump_loop (data : bytes) (j max : Z) (bytes : string) : string :=
  match data with
  | [] => bytes
  | b :: rest =>
      if j <? max
      then dump_loop rest (j + 1) max
             (bytes ++ (if (Byte.to_N b <? 16)%N then "0" else "")
                    ++ toString16 b ++ " ")%string
      else bytes
  end.

(** The white space of [String.prototype.trim] within ASCII. *)
Definition is_white_space (c : ascii) : bool :=
  match N_of_ascii c with
  | 9%N | 10%N | 11%N | 12%N | 13%N | 32%N => true
  | _ => false
  end.

Fixpoint skip_white_space (cs : list ascii) : list ascii :=
  match cs with
  | c :: cs' => if is_white_space c then skip_white_space cs' else cs
  | [] => []
  end.

(** [s.trim()] *)
Definition trim (s : string) : string :=
  string_of_list_ascii
    (rev (skip_white_space (rev (skip_white_space (list_ascii_of_string s))))).

(** The arguments [dump] passes to [console.log]. [now] is the text of
    [performance.now().toFixed(2)]; an absent [max] is 16. *)
Definition dump (now : string) (encodedFrame : EncodedFrame)
    (direction : string) (max : option Z) : list string :=
  let max := match max with Some m => m | None => 16 end in
  let bytes := dump_loop (data encodedFrame) 0 max "" in
  [now; direction; trim bytes;
   ("len=" ++ pretty (byteLength (data encodedFrame)))%string;
   ("type=" ++ match type encodedFrame with
               | Some t => property_key (Some t)
               | None => "audio"
               end)%string;
   ("ts=" ++ pretty (timestamp encodedFrame))%string;
   ("ssrc=" ++ pretty (synchronizationSource encodedFrame))%string].

(** A byte as two lowercase hexadecimal digits. *)
Definition two_hex_digits (b : byte) : string :=
  String (hex_digit (Byte.to_N b / 16))
    (String (hex_digit (Byte.to_N b mod 16)) EmptyString).

(** ** Values carried by messages *)

(** The value of [event.data.currentCryptoKey]. A message is a structured
    clone, so an object it carries is never identical to an object made in
    the worker. *)
Inductive JsValue :=
| js_undefined
| js_null
| js_string (s : string)
| js_object.

Inductive Message :=
| operation_encode
| operation_decode
| operation_setCryptoKey (material : JsValue) (offset_flag : bool)
| operation_other.

(** Which [TransformStream] a frame goes through: the sender's ([encode]) or
    the receiver's ([decode]). *)
Inductive Direction := send | recv.

(** How a transform function returns to the stream that called it. The only
    exception in reach of the two functions is the RangeError of a
    [DataView] read. *)
Inductive Completion := normal | throw_RangeError.

(** The value of [checksum] in [decodeFunction]: a number, or [false] for a
    frame of at most four bytes. *)
Inductive Checksum := checksum_false | checksum_value (n : Z).

(** ** A stand-in for the browser's AES-GCM

    A keyed XOR stream with a 16-byte checksum tag, and keys that carry
    their permitted usages as [CryptoKey.usages] does. It instantiates the
    primitive wherever a concrete run of the worker is evaluated. *)
Module StubCrypto.

Record CryptoKey := {
  usage_encrypt : bool;
  usage_decrypt : bool;
  secret : bytes
}.

Definition xor_bits (a b : bool * (bool * (bool * (bool * (bool * (bool * (bool * bool)))))))
  : bool * (bool * (bool * (bool * (bool * (bool * (bool * bool)))))) :=
  let '(a0, (a1, (a2, (a3, (a4, (a5, (a6, a7))))))) := a in
  let '(b0, (b1, (b2, (b3, (b4, (b5, (b6, b7))))))) := b in
  (xorb a0 b0, (xorb a1 b1, (xorb a2 b2, (xorb a3 b3,
   (xorb a4 b4, (xorb a5 b5, (xorb a6 b6, xorb a7 b7))))))).

Definition byte_xor (a b : byte) : byte :=
  Byte.of_bits (xor_bits (Byte.to_bits a) (Byte.to_bits b)).

Definition pad (k : CryptoKey) (iv : bytes) : byte :=
  fold_right byte_xor x00 (secret k ++ iv).

Definition tag (p : byte) (body : bytes) : bytes :=
  replicate 16 (fold_right byte_xor p body).

Fixpoint bytes_eqb (a b : bytes) : bool :=
  match a, b with
  | [], [] => true
  | x :: a', y :: b' => Byte.eqb x y && bytes_eqb a' b'
  | _, _ => false
  end.

Definition encrypt (k : CryptoKey) (iv plaintext : bytes) : option bytes :=
  if usage_encrypt k
  then Some (map (byte_xor (pad k iv)) plaintext ++ tag (pad k iv) plaintext)
  else None.

Definition decrypt (k : CryptoKey) (iv ciphertext : bytes) : option bytes :=
  if usage_decrypt k && (16 <=? length ciphertext)%nat
  then
    let n := (length ciphertext - 16)%nat in
    let body := map (byte_xor (pad k iv)) (take n ciphertext) in
    if bytes_eqb (drop n ciphertext) (tag (pad k iv) body)
    then Some body
    else None
  else None.

(** A key as [generateKey] makes it for ["encrypt"] and ["decrypt"]. *)
Definition full_key : CryptoKey :=
  {| usage_encrypt := true; usage_decrypt := true; secret := [x13; x37; xc0] |}.

End StubCrypto.

(** ** Sample frames *)
Module Sample.

Definition entropy (i : nat) : byte :=
  match Byte.of_nat (160 + i) with
  | Some b => b
  | None => x00
  end.

Definition key_frame : EncodedFrame :=
  {| data := [x10; x02; x00; x9d; x01; x2a; x40; x01; xf0; x00; xde; xad; xbe; xef];
     type := Some type_key; timestamp := 1; synchronizationSource := 7 |}.

Definition delta_frame : EncodedFrame :=
  {| data := [x11; x03; x00; xca; xfe];
     type := Some type_delta; timestamp := 2; synchronizationSource := 7 |}.

Definition audio_frame : EncodedFrame :=
  {| data := [x78; x01; x02; x03; x04];
     type := None; timestamp := 3; synchronizationSource := 9 |}.

(** A key frame shorter than the 10 bytes of its clear header. *)
Definition short_key_frame : EncodedFrame :=
  {| data := [x10; x02];
     type := Some type_key; timestamp := 4; synchronizationSource := 7 |}.

(** A video frame of the type the table does not list. *)
Definition empty_type_frame : EncodedFrame :=
  {| data := [x01; x02; x03; x04];
     type := Some type_empty; timestamp := 5; synchronizationSource := 7 |}.

(** Forty bytes that no key has sealed. *)
Definition forged_frame : EncodedFrame :=
  {| data := map entropy (seq 0 40);
     type := None; timestamp := 6; synchronizationSource := 9 |}.

End Sample.

(** ** The worker *)

Section Worker.

(** [CryptoKey] objects and the two operations of [crypto.subtle] with
    [{name: "AES-GCM", iv}]: [Some result] when the promise is fulfilled,
    [None] when it is rejected. *)
Variable CryptoKey : Type.
Variable subtle_encrypt : CryptoKey -> bytes -> bytes -> option bytes.
Variable subtle_decrypt : CryptoKey -> bytes -> bytes -> option bytes.

(** A call of [crypto.subtle] whose promise has not settled yet, with what
    its [then] callback has captured. *)
Inductive CipherOp :=
| op_encrypt (key : CryptoKey) (iv dataToEnc dataHeader : bytes)
             (encodedFrame : EncodedFrame)
| op_decrypt (key : CryptoKey) (iv dataToDec dataHeader : bytes)
             (encodedFrame : EncodedFrame).

(** The settlement of a [generateKey] promise. *)
Inductive KeyResult :=
| key_fulfilled (k : CryptoKey)
| key_rejected (err : string).

Record Worker := {
  currentCryptoKey : option CryptoKey;
  useCryptoOffset : bool;
  currentKeyIdentifier : Z;
  scount : Z;
  rcount : Z;
  (** cipher promises in flight, oldest first *)
  inflight : list CipherOp;
  (** [generateKey] promises in flight *)
  keys_inflight : nat;
  (** the calls of [controller.enqueue], oldest first *)
  enqueued : list (Direction * EncodedFrame);
  (** the calls of [console.error], oldest first *)
  console : list string
}.

Definition init : Worker :=
  {| currentCryptoKey := None; useCryptoOffset := true;
     currentKeyIdentifier := 0; scount := 0; rcount := 0;
     inflight := []; keys_inflight := 0%nat; enqueued := []; console := [] |}.

Definition set_scount (w : Worker) (n : Z) : Worker :=
  {| currentCryptoKey := currentCryptoKey w; useCryptoOffset := useCryptoOffset w;
     currentKeyIdentifier := currentKeyIdentifier w; scount := n; rcount := rcount w;
     inflight := inflight w; keys_inflight := keys_inflight w;
     enqueued := enqueued w; console := console w |}.

Definition set_rcount (w : Worker) (n : Z) : Worker :=
  {| currentCryptoKey := currentCryptoKey w; useCryptoOffset := useCryptoOffset w;
     currentKeyIdentifier := currentKeyIdentifier w; scount := scount w; rcount := n;
     inflight := inflight w; keys_inflight := keys_inflight w;
     enqueued := enqueued w; console := console w |}.

Definition set_inflight (w : Worker) (ops : list CipherOp) : Worker :=
  {| currentCryptoKey := currentCryptoKey w; useCryptoOffset := useCryptoOffset w;
     currentKeyIdentifier := currentKeyIdentifier w; scount := scount w;
     rcount := rcount w; inflight := ops; keys_inflight := keys_inflight w;
     enqueued := enqueued w; console := console w |}.

Definition controller_enqueue (w : Worker) (d : Direction) (f : EncodedFrame) : Worker :=
  {| currentCryptoKey := currentCryptoKey w; useCryptoOffset := useCryptoOffset w;
     currentKeyIdentifier := currentKeyIdentifier w; scount := scount w;
     rcount := rcount w; inflight := inflight w; keys_inflight := keys_inflight w;
     enqueued := enqueued w ++ [(d, f)]; console := console w |}.

(** *** The frame cipher *)

(** The [then] callback of [encodeFunction]: the new payload is
    [dataHeader], [result] and [iv] written into a fresh array. *)
Definition encrypt_then (dataHeader result iv : bytes) : option bytes :=
  let newData :=
    Uint8Array_new (byteLength dataHeader + byteLength result + byteLength iv) in
  newData ← Uint8Array_set newData dataHeader 0;
  newData ← Uint8Array_set newData result (byteLength dataHeader);
  Uint8Array_set newData iv (byteLength dataHeader + byteLength result).

(** The [then] callback of [decodeFunction]. *)
Definition decrypt_then (dataHeader result : bytes) : option bytes :=
  let newData := Uint8Array_new (byteLength dataHeader + byteLength result) in
  newData ← Uint8Array_set newData dataHeader 0;
  Uint8Array_set newData result (byteLength dataHeader).

(** What a cipher operation makes of its frame once its promise settles:
    [None] when the promise is rejected (the callback never runs) or the
    callback throws. *)
Definition op_output (op : CipherOp) : option (Direction * EncodedFrame) :=
  match op with
  | op_encrypt key iv dataToEnc dataHeader encodedFrame =>
      result ← subtle_encrypt key iv dataToEnc;
      newData ← encrypt_then dataHeader result iv;
      Some (send, set_data encodedFrame newData)
  | op_decrypt key iv dataToDec dataHeader encodedFrame =>
      result ← subtle_decrypt key iv dataToDec;
      newData ← decrypt_then dataHeader result;
      Some (recv, set_data encodedFrame newData)
  end.

(** The synchronous part of the keyed branch of [encodeFunction]. *)
Definition encrypt_call (key : CryptoKey) (offset_flag : bool)
    (entropy : nat -> byte) (encodedFrame : EncodedFrame) : CipherOp :=
  let cryptoOffset := cryptoOffset offset_flag encodedFrame in
  let dataToEnc := slice (data encodedFrame) cryptoOffset None in
  let dataHeader := slice (data encodedFrame) (Some 0) cryptoOffset in
  let iv := getRandomValues entropy (Uint8Array_new 12) in
  op_encrypt key iv dataToEnc dataHeader encodedFrame.

(** The synchronous part of the keyed branch of [decodeFunction]. *)
Definition decrypt_call (key : CryptoKey) (offset_flag : bool)
    (encodedFrame : EncodedFrame) : CipherOp :=
  let cryptoOffset := cryptoOffset offset_flag encodedFrame in
  let len := byteLength (data encodedFrame) in
  let dataHeader := slice (data encodedFrame) (Some 0) cryptoOffset in
  let dataToDec := slice (data encodedFrame) cryptoOffset (Some (len - 12)) in
  let iv := slice (data encodedFrame) (Some (len - 12)) None in
  op_decrypt key iv dataToDec dataHeader encodedFrame.

(** The frame an encryption yields when its promise is fulfilled. *)
Definition encrypt_frame (key : CryptoKey) (offset_flag : bool)
    (entropy : nat -> byte) (f : EncodedFrame) : option EncodedFrame :=
  snd <$> op_output (encrypt_call key offset_flag entropy f).

Definition decrypt_frame (key : CryptoKey) (offset_flag : bool)
    (f : EncodedFrame) : option EncodedFrame :=
  snd <$> op_output (decrypt_call key offset_flag f).

(** *** The transform functions *)

Definition encodeFunction (w : Worker) (encodedFrame : EncodedFrame)
    (entropy : nat -> byte) : Completion * Worker :=
  let w := set_scount w (scount w + 1) in
  match currentCryptoKey w with
  | Some key =>
      let op := encrypt_call key (useCryptoOffset w) entropy encodedFrame in
      (normal, set_inflight w (inflight w ++ [op]))
  | None => (normal, controller_enqueue w send encodedFrame)
  end.

Definition decodeFunction (w : Worker) (encodedFrame : EncodedFrame)
    : Completion * Worker :=
  let w := set_rcount w (rcount w + 1) in
  let len := byteLength (data encodedFrame) in
  let checksum :=
    if 4 <? len
    then checksum_value <$> getUint32 (data encodedFrame) (len - 4)
    else Some checksum_false in
  match checksum with
  | None => (throw_RangeError, w)
  | Some _ =>
      match currentCryptoKey w with
      | Some key =>
          let op := decrypt_call key (useCryptoOffset w) encodedFrame in
          (normal, set_inflight w (inflight w ++ [op]))
      | None => (normal, controller_enqueue w recv encodedFrame)
      end
  end.

(** *** Key installation *)

(** [event.data.currentCryptoKey !== currentCryptoKey]. The worker's key is
    [undefined] or a [CryptoKey] object of its own making. *)
Definition strict_neq (v : JsValue) (current : option CryptoKey) : bool :=
  match v, current with
  | js_undefined, None => false
  | _, _ => true
  end.

Definition onmessage (w : Worker) (m : Message) : Worker :=
  match m with
  | operation_setCryptoKey material offset_flag =>
      {| currentCryptoKey := currentCryptoKey w;
         useCryptoOffset := offset_flag;
         currentKeyIdentifier :=
           if strict_neq material (currentCryptoKey w)
           then currentKeyIdentifier w + 1
           else currentKeyIdentifier w;
         scount := scount w; rcount := rcount w; inflight := inflight w;
         keys_inflight := S (keys_inflight w);
         enqueued := enqueued w; console := console w |}
  | _ => w
  end.

(** The callbacks of [make_video_key]: a fulfilled [generateKey] resolves
    the outer promise, whose callback assigns [currentCryptoKey]; a rejected
    one is logged and the outer promise never settles. *)
Definition key_settled (w : Worker) (r : KeyResult) : Worker :=
  match keys_inflight w with
  | O => w
  | S n =>
      match r with
      | key_fulfilled k =>
          {| currentCryptoKey := Some k; useCryptoOffset := useCryptoOffset w;
             currentKeyIdentifier := currentKeyIdentifier w; scount := scount w;
             rcount := rcount w; inflight := inflight w; keys_inflight := n;
             enqueued := enqueued w; console := console w |}
      | key_rejected err =>
          {| currentCryptoKey := currentCryptoKey w;
             useCryptoOffset := useCryptoOffset w;
             currentKeyIdentifier := currentKeyIdentifier w; scount := scount w;
             rcount := rcount w; inflight := inflight w; keys_inflight := n;
             enqueued := enqueued w; console := console w ++ [err] |}
      end
  end.

(** *** The event loop *)

(** The [i]-th cipher promise in flight settles. *)
Definition settle (w : Worker) (i : nat) : Worker :=
  match inflight w !! i with
  | None => w
  | Some op =>
      let w := set_inflight w (delete i (inflight w)) in
      match op_output op with
      | Some (d, f) => controller_enqueue w d f
      | None => w
      end
  end.

Inductive Event :=
| ev_message (m : Message)
| ev_encode (encodedFrame : EncodedFrame) (entropy : nat -> byte)
| ev_decode (encodedFrame : EncodedFrame)
| ev_settle (i : nat)
| ev_key (r : KeyResult).

Definition step (w : Worker) (e : Event) : Worker :=
  match e with
  | ev_message m => onmessage w m
  | ev_encode f entropy => snd (encodeFunction w f entropy)
  | ev_decode f => snd (decodeFunction w f)
  | ev_settle i => settle w i
  | ev_key r => key_settled w r
  end.

Definition run (w : Worker) (es : list Event) : Worker := fold_left step es w.

(** The worker after a first setCryptoKey message whose key generation
    was fulfilled with [k]. *)
Definition first_install (k : CryptoKey) : Worker :=
  key_settled
    (onmessage init (operation_setCryptoKey (js_string "secret") true))
    (key_fulfilled k).

(** The three variables of the key epoch. *)
Definition key_epoch (w : Worker) : option CryptoKey * Z * bool :=
  (currentCryptoKey w, currentKeyIdentifier w, useCryptoOffset w).

(** ** Frames going in and coming out *)

(** The frame an event hands to a transform function, with the stream it
    belongs to. *)
Definition submitted (e : Event) : option (Direction * EncodedFrame) :=
  match e with
  | ev_encode f _ => Some (send, f)
  | ev_decode f => Some (recv, f)
  | _ => None
  end.

Definition is_setCryptoKey (e : Event) : bool :=
  match e with
  | ev_message (operation_setCryptoKey _ _) => true
  | _ => false
  end.

(** The event is the fulfilment of a key generation. *)
Definition installs_key (e : Event) : bool :=
  match e with
  | ev_key (key_fulfilled _) => true
  | _ => false
  end.

(** The controller a cipher operation will enqueue to, and the frame object
    its callback holds. *)
Definition op_direction (op : CipherOp) : Direction :=
  match op with
  | op_encrypt _ _ _ _ _ => send
  | op_decrypt _ _ _ _ _ => recv
  end.

Definition op_frame (op : CipherOp) : EncodedFrame :=
  match op with
  | op_encrypt _ _ _ _ f => f
  | op_decrypt _ _ _ _ f => f
  end.

(** A frame [g] found at controller [d] stems from the frames [S] handed
    in when one of them was handed to the same stream with the same
    metadata. *)
Definition stems_from (S : list (Direction * EncodedFrame))
    (d : Direction) (g : EncodedFrame) : Prop :=
  exists f, (d, f) ∈ S /\ metadata g = metadata f.

(** All of the worker but its two packet counters and its key
    identifier. *)
Definition observable (w : Worker)
    : option CryptoKey * bool * list CipherOp * nat
      * list (Direction * EncodedFrame) * list string :=
  (currentCryptoKey w, useCryptoOffset w, inflight w, keys_inflight w,
   enqueued w, console w).

(** A frame as the streams tell frames apart: by its controller and its
    metadata, whatever its payload. *)
Definition tagged (x : Direction * EncodedFrame)
    : Direction * (option RTCEncodedVideoFrameType * Z * Z) :=
  (fst x, metadata (snd x)).

Definition op_tagged (op : CipherOp)
    : Direction * (option RTCEncodedVideoFrameType * Z * Z) :=
  (op_direction op, metadata (op_frame op)).

(** ** Order of settlement and order of arrival *)

Definition Direction_eqb (a b : Direction) : bool :=
  match a, b with
  | send, send | recv, recv => true
  | _, _ => false
  end.

(** The frames enqueued to the controller of one stream, in order. *)
Definition of_stream (d : Direction) (l : list (Direction * EncodedFrame))
    : list EncodedFrame :=
  omap (fun x => if Direction_eqb (fst x) d then Some (snd x) else None) l.

(** What an event makes the worker enqueue there and then: without a key,
    the frame that arrives; when a promise settles, what its operation
    yields. *)
Definition emitted (w : Worker) (e : Event) : list (Direction * EncodedFrame) :=
  match e with
  | ev_encode f _ =>
      match currentCryptoKey w with
      | Some _ => []
      | None => [(send, f)]
      end
  | ev_decode f =>
      match currentCryptoKey w with
      | Some _ => []
      | None => [(recv, f)]
      end
  | ev_settle i =>
      match inflight w !! i with
      | Some op => option_list (op_output op)
      | None => []
      end
  | _ => []
  end.

(** The same along a run: the outputs in the order of the events that
    release them. *)
Fixpoint emissions (w : Worker) (es : list Event) : list (Direction * EncodedFrame) :=
  match es with
  | [] => []
  | e :: es' => emitted w e ++ emissions (step w e) es'
  end.

(** What the frame of an arrival comes to in the end, under the key and the
    flag of the moment it arrives: itself without a key, else what its
    cipher operation yields. *)
Definition frame_result (w : Worker) (e : Event) : list (Direction * EncodedFrame) :=
  match e with
  | ev_encode f entropy =>
      match currentCryptoKey w with
      | Some key =>
          option_list (op_output (encrypt_call key (useCryptoOffset w) entropy f))
      | None => [(send, f)]
      end
  | ev_decode f =>
      match currentCryptoKey w with
      | Some key => option_list (op_output (decrypt_call key (useCryptoOffset w) f))
      | None => [(recv, f)]
      end
  | _ => []
  end.

(** The same along a run: the results of the frames in the order of their
    arrival. *)
Fixpoint results_in_arrival_order (w : Worker) (es : list Event)
    : list (Direction * EncodedFrame) :=
  match es with
  | [] => []
  | e :: es' => frame_result w e ++ results_in_arrival_order (step w e) es'
  end.

(** The promise an event settles, if any, is the oldest in flight of its
    stream. *)
Definition settles_oldest (w : Worker) (e : Event) : bool :=
  match e with
  | ev_settle i =>
      match inflight w !! i with
      | Some op =>
          forallb (fun op' => negb (Direction_eqb (op_direction op') (op_direction op)))
            (take i (inflight w))
      | None => true
      end
  | _ => true
  end.

(** Along a run, the promises of each stream settle in the order in which
    they were made. *)
Fixpoint settles_in_order (w : Worker) (es : list Event) : bool :=
  match es with
  | [] => true
  | e :: es' => settles_oldest w e && settles_in_order (step w e) es'
  end.

(** * Properties *)

(** ** Buffers *)

Lemma byteLength_nonneg (buf : bytes) : 0 <= byteLength buf.
Proof. unfold byteLength. lia. Qed.

Lemma byteLength_app (a b : bytes) :
  byteLength (a ++ b) = byteLength a + byteLength b.
Proof. unfold byteLength. rewrite length_app. lia. Qed.

Lemma relative_index_nonneg (len n : Z) :
  0 <= n -> relative_index len n = Z.min n len.
Proof.
  intros Hn. unfold relative_index.
  destruct (Z.ltb_spec n 0); [lia | reflexivity].
Qed.

Lemma slice_prefix (buf : bytes) (n : Z) :
  0 <= n -> slice buf (Some 0) (Some n) = take (Z.to_nat n) buf.
Proof.
  intros Hn. unfold slice, ToIntegerOrInfinity.
  rewrite !relative_index_nonneg by lia.
  pose proof (byteLength_nonneg buf) as Hlen.
  rewrite (Z.min_l 0) by lia. rewrite Z.sub_0_r. simpl drop.
  unfold byteLength in *.
  destruct (Z.le_ge_cases n (Z.of_nat (length buf))) as [Hle|Hge].
  - rewrite Z.min_l, Z.max_l by lia. reflexivity.
  - rewrite Z.min_r, Z.max_l by lia.
    rewrite (take_ge buf (Z.to_nat n)) by lia.
    apply take_ge. lia.
Qed.

Lemma slice_suffix (buf : bytes) (n : Z) :
  0 <= n -> slice buf (Some n) None = drop (Z.to_nat n) buf.
Proof.
  intros Hn. unfold slice, ToIntegerOrInfinity.
  rewrite relative_index_nonneg by lia. unfold byteLength.
  destruct (Z.le_ge_cases n (Z.of_nat (length buf))) as [Hle|Hge].
  - rewrite Z.min_l by lia. apply take_ge. rewrite length_drop. lia.
  - rewrite Z.min_r by lia. rewrite Nat2Z.id.
    rewrite (drop_ge buf (Z.to_nat n)) by lia.
    rewrite drop_ge by lia. apply take_nil.
Qed.

Lemma slice_all (buf : bytes) : slice buf None None = buf.
Proof.
  unfold slice, ToIntegerOrInfinity.
  rewrite relative_index_nonneg by lia.
  pose proof (byteLength_nonneg buf).
  rewrite Z.min_l by lia. simpl drop. apply take_ge.
  unfold byteLength. lia.
Qed.

Lemma slice_to_end (buf : bytes) : slice buf (Some 0) None = buf.
Proof. rewrite slice_suffix by lia. reflexivity. Qed.

Lemma slice_middle (a b c : bytes) :
  slice (a ++ b ++ c) (Some (byteLength a)) (Some (byteLength a + byteLength b)) = b.
Proof.
  unfold slice, ToIntegerOrInfinity.
  pose proof (byteLength_nonneg a). pose proof (byteLength_nonneg b).
  pose proof (byteLength_nonneg c).
  rewrite !relative_index_nonneg by lia.
  rewrite !byteLength_app, !Z.min_l by lia.
  replace (Z.to_nat (byteLength a)) with (length a) by (unfold byteLength; lia).
  rewrite drop_app_length.
  apply take_app_length'. unfold byteLength in *. lia.
Qed.

Lemma slice_last (a c : bytes) :
  slice (a ++ c) (Some (byteLength a)) None = c.
Proof.
  rewrite slice_suffix by apply byteLength_nonneg.
  replace (Z.to_nat (byteLength a)) with (length a) by (unfold byteLength; lia).
  apply drop_app_length.
Qed.

Lemma Uint8Array_set_fits (pre old post src : bytes) :
  length old = length src ->
  Uint8Array_set (pre ++ old ++ post) src (byteLength pre) = Some (pre ++ src ++ post).
Proof.
  intros Hlen. unfold Uint8Array_set.
  rewrite !byteLength_app.
  pose proof (byteLength_nonneg pre). pose proof (byteLength_nonneg post).
  assert (byteLength old = byteLength src) as -> by (unfold byteLength; lia).
  destruct (Z.leb_spec 0 (byteLength pre)); [|lia].
  destruct (Z.leb_spec (byteLength pre + byteLength src)
              (byteLength pre + (byteLength src + byteLength post))); [|lia].
  simpl. f_equal.
  replace (Z.to_nat (byteLength pre)) with (length pre) by (unfold byteLength; lia).
  rewrite take_app_length. f_equal. f_equal.
  rewrite <- Hlen, drop_app_add', drop_app_length; [reflexivity | lia].
Qed.

Lemma Uint8Array_set_start (old post src : bytes) :
  length old = length src ->
  Uint8Array_set (old ++ post) src 0 = Some (src ++ post).
Proof. intros H. exact (Uint8Array_set_fits [] old post src H). Qed.

Lemma Uint8Array_set_end (pre old src : bytes) :
  length old = length src ->
  Uint8Array_set (pre ++ old) src (byteLength pre) = Some (pre ++ src).
Proof.
  intros H. pose proof (Uint8Array_set_fits pre old [] src H) as Hfit.
  rewrite !app_nil_r in Hfit. exact Hfit.
Qed.

Lemma Uint8Array_new_length (buf : bytes) :
  length (Uint8Array_new (byteLength buf)) = length buf.
Proof. unfold Uint8Array_new, byteLength. rewrite length_replicate. lia. Qed.

Lemma Uint8Array_new_app (a b : bytes) :
  Uint8Array_new (byteLength a + byteLength b)
  = Uint8Array_new (byteLength a) ++ Uint8Array_new (byteLength b).
Proof.
  unfold Uint8Array_new, byteLength.
  rewrite Z2Nat.inj_add by lia. apply replicate_add.
Qed.

Lemma getRandomValues_length (entropy : nat -> byte) (arr : bytes) :
  length (getRandomValues entropy arr) = length arr.
Proof. unfold getRandomValues. rewrite length_map, length_seq. reflexivity. Qed.

Lemma iv_byteLength (entropy : nat -> byte) :
  byteLength (getRandomValues entropy (Uint8Array_new 12)) = 12.
Proof. unfold byteLength. rewrite getRandomValues_length. reflexivity. Qed.

(** ** The callbacks assemble the new payload by concatenation *)

Lemma encrypt_then_concat (dataHeader result iv : bytes) :
  encrypt_then dataHeader result iv = Some (dataHeader ++ result ++ iv).
Proof.
  unfold encrypt_then.
  rewrite <- byteLength_app, Uint8Array_new_app, byteLength_app, Uint8Array_new_app.
  rewrite <- app_assoc.
  rewrite Uint8Array_set_start by apply Uint8Array_new_length. simpl.
  rewrite Uint8Array_set_fits by apply Uint8Array_new_length. simpl.
  rewrite <- byteLength_app, (app_assoc dataHeader).
  rewrite Uint8Array_set_end by apply Uint8Array_new_length.
  rewrite <- app_assoc. reflexivity.
Qed.

Lemma decrypt_then_concat (dataHeader result : bytes) :
  decrypt_then dataHeader result = Some (dataHeader ++ result).
Proof.
  unfold decrypt_then.
  rewrite Uint8Array_new_app.
  rewrite Uint8Array_set_start by apply Uint8Array_new_length. simpl.
  apply Uint8Array_set_end, Uint8Array_new_length.
Qed.

(** ** Clear-header policy *)

Lemma cryptoOffset_cases (flag : bool) (f : EncodedFrame) :
  cryptoOffset flag f =
    if flag
    then match type f with
         | Some type_key => Some 10
         | Some type_delta => Some 3
         | Some type_empty => None
         | None => Some 1
         end
    else Some 0.
Proof. destruct flag, f as [d [[| |]|] ts ssrc]; reflexivity. Qed.

Lemma cryptoOffset_range (flag : bool) (f : EncodedFrame) (hl : Z) :
  cryptoOffset flag f = Some hl -> 0 <= hl <= 10.
Proof.
  rewrite cryptoOffset_cases.
  destruct flag, (type f) as [[| |]|]; intros [= <-] || intros [=]; lia.
Qed.

Lemma cryptoOffset_set_data (flag : bool) (f : EncodedFrame) (d : bytes) :
  cryptoOffset flag (set_data f d) = cryptoOffset flag f.
Proof. reflexivity. Qed.

Lemma set_data_set_data (f : EncodedFrame) (d : bytes) :
  set_data (set_data f d) (data f) = f.
Proof. destruct f; reflexivity. Qed.

(** ** The frame cipher *)

Lemma encrypt_call_split (key : CryptoKey) (flag : bool) (entropy : nat -> byte)
    (f : EncodedFrame) (hl : Z) :
  cryptoOffset flag f = Some hl ->
  encrypt_call key flag entropy f
  = op_encrypt key (getRandomValues entropy (Uint8Array_new 12))
      (drop (Z.to_nat hl) (data f)) (take (Z.to_nat hl) (data f)) f.
Proof.
  intros Hoff. pose proof (cryptoOffset_range _ _ _ Hoff) as [Hlo _].
  unfold encrypt_call. rewrite Hoff.
  rewrite slice_suffix, slice_prefix by lia. reflexivity.
Qed.

Lemma encrypt_frame_inv (key : CryptoKey) (flag : bool) (entropy : nat -> byte)
    (f env : EncodedFrame) (hl : Z) :
  cryptoOffset flag f = Some hl ->
  encrypt_frame key flag entropy f = Some env ->
  exists ciphertext,
    subtle_encrypt key (getRandomValues entropy (Uint8Array_new 12))
      (drop (Z.to_nat hl) (data f)) = Some ciphertext /\
    env = set_data f (take (Z.to_nat hl) (data f) ++ ciphertext
                      ++ getRandomValues entropy (Uint8Array_new 12)).
Proof.
  intros Hoff. unfold encrypt_frame.
  rewrite (encrypt_call_split _ _ _ _ _ Hoff). simpl.
  destruct (subtle_encrypt _ _ _) as [ct|]; [|discriminate].
  simpl. rewrite encrypt_then_concat. simpl. intros [= <-]. eauto.
Qed.

Lemma decrypt_call_envelope (key : CryptoKey) (flag : bool) (f : EncodedFrame)
    (header ciphertext iv : bytes) :
  cryptoOffset flag f = Some (byteLength header) ->
  byteLength iv = 12 ->
  decrypt_call key flag (set_data f (header ++ ciphertext ++ iv))
  = op_decrypt key iv ciphertext header (set_data f (header ++ ciphertext ++ iv)).
Proof.
  intros Hoff Hiv. unfold decrypt_call.
  rewrite cryptoOffset_set_data, Hoff. simpl data.
  rewrite !byteLength_app, Hiv.
  replace (byteLength header + (byteLength ciphertext + 12) - 12)
    with (byteLength header + byteLength ciphertext) by lia.
  rewrite slice_middle.
  rewrite slice_prefix by apply byteLength_nonneg.
  rewrite take_app_length' by (unfold byteLength; lia).
  rewrite <- byteLength_app, app_assoc, slice_last. reflexivity.
Qed.

(** C1, as amended. Let the clear-header length [hl] of the frame's
    classification be defined, let the payload be at least [hl] bytes long,
    and let the primitive's decryption invert its encryption under [key].
    Then decrypting the envelope that encrypting the frame produced, with
    the same flag and key, returns exactly the original frame, payload and
    metadata. *)
Theorem decrypt_encrypt_roundtrip (key : CryptoKey) (flag : bool)
    (entropy : nat -> byte) (f env : EncodedFrame) (hl : Z) :
  (forall iv p c, subtle_encrypt key iv p = Some c -> subtle_decrypt key iv c = Some p) ->
  cryptoOffset flag f = Some hl ->
  hl <= byteLength (data f) ->
  encrypt_frame key flag entropy f = Some env ->
  decrypt_frame key flag env = Some f.
Proof.
  intros Haead Hoff Hlen Henc.
  pose proof (cryptoOffset_range _ _ _ Hoff) as [Hlo _].
  destruct (encrypt_frame_inv _ _ _ _ _ _ Hoff Henc) as (ct & Hct & ->).
  assert (byteLength (take (Z.to_nat hl) (data f)) = hl) as Hhdr.
  { unfold byteLength in *. rewrite length_take. lia. }
  unfold decrypt_frame.
  rewrite decrypt_call_envelope; [| rewrite Hhdr; exact Hoff | apply iv_byteLength].
  simpl. rewrite (Haead _ _ _ Hct). simpl.
  rewrite decrypt_then_concat. simpl.
  rewrite take_drop. f_equal. apply set_data_set_data.
Qed.

(** The round trip cannot succeed on a payload shorter than its clear
    header, whatever the primitive does: the decoder takes [hl] bytes of the
    envelope as header, so what it returns is at least [hl] bytes long. *)
Lemma short_payload_breaks_roundtrip (key : CryptoKey) (flag : bool)
    (entropy : nat -> byte) (f env : EncodedFrame) (hl : Z) :
  cryptoOffset flag f = Some hl ->
  byteLength (data f) < hl ->
  encrypt_frame key flag entropy f = Some env ->
  decrypt_frame key flag env <> Some f.
Proof.
  intros Hoff Hlen Henc Hdec.
  pose proof (cryptoOffset_range _ _ _ Hoff) as [Hlo Hhi].
  destruct (encrypt_frame_inv _ _ _ _ _ _ Hoff Henc) as (ct & Hct & ->).
  pose proof (iv_byteLength entropy) as Hiv.
  unfold decrypt_frame, decrypt_call in Hdec.
  rewrite cryptoOffset_set_data, Hoff in Hdec. simpl in Hdec.
  destruct (subtle_decrypt _ _ _) as [body|]; [|discriminate].
  simpl in Hdec. rewrite decrypt_then_concat in Hdec. simpl in Hdec.
  injection Hdec as Hdec. apply (f_equal data) in Hdec. simpl in Hdec.
  apply (f_equal byteLength) in Hdec.
  rewrite slice_prefix, byteLength_app in Hdec by lia.
  pose proof (byteLength_nonneg body).
  unfold byteLength in *.
  rewrite length_take, !length_app, length_take in *. lia.
Qed.

(** C4. For every frame whose clear-header length [hl] is defined, whatever
    the length of its payload, the envelope is the clear header (the first
    [hl] bytes of the payload), then the ciphertext the primitive returned
    for the rest of the payload, then the 12-byte nonce; the envelope begins
    with the clear header. Where the payload has at least [hl] bytes, as
    the data model requires of a clear-header length, the clear header has
    [hl] bytes and the first [hl] bytes of the envelope are the first [hl]
    bytes of the payload. With the clear header switched on, [hl] is 10 for
    a key frame, 3 for a delta frame and 1 for a frame without a type. *)
Theorem envelope_layout (key : CryptoKey) (flag : bool)
    (entropy : nat -> byte) (f env : EncodedFrame) (hl : Z) :
  cryptoOffset flag f = Some hl ->
  encrypt_frame key flag entropy f = Some env ->
  let iv := getRandomValues entropy (Uint8Array_new 12) in
  let header := take (Z.to_nat hl) (data f) in
  exists ciphertext,
    subtle_encrypt key iv (drop (Z.to_nat hl) (data f)) = Some ciphertext /\
    data env = header ++ ciphertext ++ iv /\
    byteLength iv = 12 /\
    header `prefix_of` data env /\
    (hl <= byteLength (data f) ->
     byteLength header = hl /\
     take (Z.to_nat hl) (data env) = take (Z.to_nat hl) (data f)) /\
    (flag = true ->
     match type f with
     | Some type_key => hl = 10
     | Some type_delta => hl = 3
     | None => hl = 1
     | Some type_empty => False
     end).
Proof.
  intros Hoff Henc iv header.
  pose proof (cryptoOffset_range _ _ _ Hoff) as [Hlo _].
  destruct (encrypt_frame_inv _ _ _ _ _ _ Hoff Henc) as (ct & Hct & ->).
  exists ct.
  split; [exact Hct|]. split; [reflexivity|].
  split; [apply iv_byteLength|]. split; [|split].
  - simpl. fold header. exists (ct ++ iv). reflexivity.
  - intros Hlen.
    assert (byteLength header = hl) as Hhdr.
    { subst header. unfold byteLength in *. rewrite length_take. lia. }
    split; [exact Hhdr|].
    simpl. fold header. apply take_app_length'. unfold byteLength in Hhdr. lia.
  - intros ->. rewrite cryptoOffset_cases in Hoff.
    destruct (type f) as [[| |]|]; congruence.
Qed.

(** C7, as amended. [cryptoOffset] is a total function of the flag and the
    frame's type: with the flag on it is 10 for a key frame, 3 for a delta
    frame and 1 for a frame without a type, and it is [undefined] for the
    one remaining type, "empty", which the table does not list (there is no
    default); with the flag off it is 0 for every frame. *)
Theorem clear_header_length (f : EncodedFrame) :
  cryptoOffset true f =
    match type f with
    | Some type_key => Some 10
    | Some type_delta => Some 3
    | None => Some 1
    | Some type_empty => None
    end /\
  cryptoOffset false f = Some 0.
Proof. split; [exact (cryptoOffset_cases true f) | reflexivity]. Qed.

(** ** The transform functions *)

Lemma set_data_data (f : EncodedFrame) : set_data f (data f) = f.
Proof. destruct f; reflexivity. Qed.

(** The read of [checksum] never leaves the buffer. *)
Lemma checksum_defined (buf : bytes) :
  exists c,
    (if 4 <? byteLength buf
     then checksum_value <$> getUint32 buf (byteLength buf - 4)
     else Some checksum_false) = Some c.
Proof.
  destruct (Z.ltb_spec 4 (byteLength buf)) as [Hlt|Hge]; [|eauto].
  unfold getUint32.
  destruct (Z.leb_spec 0 (byteLength buf - 4)); [|lia].
  destruct (Z.leb_spec (byteLength buf - 4 + 4) (byteLength buf)); [|lia].
  simpl. eauto.
Qed.

Lemma decodeFunction_keyed (w : Worker) (f : EncodedFrame) (key : CryptoKey) :
  currentCryptoKey w = Some key ->
  decodeFunction w f
  = (normal, set_inflight (set_rcount w (rcount w + 1))
               (inflight w ++ [decrypt_call key (useCryptoOffset w) f])).
Proof.
  intros Hkey. unfold decodeFunction.
  destruct (checksum_defined (data f)) as [c ->].
  simpl. rewrite Hkey. reflexivity.
Qed.

Lemma decodeFunction_unkeyed (w : Worker) (f : EncodedFrame) :
  currentCryptoKey w = None ->
  decodeFunction w f = (normal, controller_enqueue (set_rcount w (rcount w + 1)) recv f).
Proof.
  intros Hkey. unfold decodeFunction.
  destruct (checksum_defined (data f)) as [c ->].
  simpl. rewrite Hkey. reflexivity.
Qed.

Lemma encodeFunction_keyed (w : Worker) (f : EncodedFrame) (entropy : nat -> byte)
    (key : CryptoKey) :
  currentCryptoKey w = Some key ->
  encodeFunction w f entropy
  = (normal, set_inflight (set_scount w (scount w + 1))
               (inflight w ++ [encrypt_call key (useCryptoOffset w) entropy f])).
Proof. intros Hkey. unfold encodeFunction. simpl. rewrite Hkey. reflexivity. Qed.

(** C3, as amended. [decodeFunction] checks no length and knows no
    malformed frame: under a key it completes normally on every envelope, of
    any length, and hands slices of it to the primitive. For an envelope of
    at least [hl + 12] bytes, [hl] its clear-header length, these slices are
    the header (the first [hl] bytes), the ciphertext and the nonce (the
    last 12 bytes), which together are the envelope. *)
Theorem decode_splits_envelope (w : Worker) (f : EncodedFrame) (key : CryptoKey) :
  currentCryptoKey w = Some key ->
  decodeFunction w f
  = (normal, set_inflight (set_rcount w (rcount w + 1))
               (inflight w ++ [decrypt_call key (useCryptoOffset w) f])) /\
  forall hl,
    cryptoOffset (useCryptoOffset w) f = Some hl ->
    hl + 12 <= byteLength (data f) ->
    exists header ciphertext iv,
      decrypt_call key (useCryptoOffset w) f = op_decrypt key iv ciphertext header f /\
      data f = header ++ ciphertext ++ iv /\
      header = take (Z.to_nat hl) (data f) /\
      byteLength header = hl /\
      byteLength iv = 12.
Proof.
  intros Hkey. split; [apply decodeFunction_keyed, Hkey|].
  intros hl Hoff Hlen.
  pose proof (cryptoOffset_range _ _ _ Hoff) as [Hlo _].
  set (header := take (Z.to_nat hl) (data f)).
  set (rest := drop (Z.to_nat hl) (data f)).
  set (n := (length rest - 12)%nat).
  assert (length rest = (length (data f) - Z.to_nat hl)%nat) as Hrest
    by (subst rest; apply length_drop).
  assert (byteLength header = hl) as Hhdr.
  { subst header. unfold byteLength in *. rewrite length_take. lia. }
  assert (byteLength (drop n rest) = 12) as Hiv.
  { unfold byteLength in *. rewrite length_drop. lia. }
  assert (data f = header ++ take n rest ++ drop n rest) as Hdata.
  { rewrite take_drop. subst header rest. symmetry. apply take_drop. }
  exists header, (take n rest), (drop n rest).
  split; [|auto].
  rewrite <- (set_data_data f) at 1. rewrite Hdata at 1.
  rewrite decrypt_call_envelope; [| rewrite Hhdr; exact Hoff | exact Hiv].
  rewrite <- Hdata, set_data_data. reflexivity.
Qed.

(** C5. While the worker has no key, both transform functions complete
    normally and enqueue the very frame they were given, after the frames
    enqueued before; no cipher operation is started and nothing is logged. *)
Theorem passthrough_without_key (w : Worker) (f : EncodedFrame)
    (entropy : nat -> byte) :
  currentCryptoKey w = None ->
  (fst (encodeFunction w f entropy) = normal /\
   enqueued (snd (encodeFunction w f entropy)) = enqueued w ++ [(send, f)] /\
   inflight (snd (encodeFunction w f entropy)) = inflight w /\
   console (snd (encodeFunction w f entropy)) = console w) /\
  (fst (decodeFunction w f) = normal /\
   enqueued (snd (decodeFunction w f)) = enqueued w ++ [(recv, f)] /\
   inflight (snd (decodeFunction w f)) = inflight w /\
   console (snd (decodeFunction w f)) = console w).
Proof.
  intros Hkey. split.
  - unfold encodeFunction. simpl. rewrite Hkey. simpl. repeat split.
  - rewrite (decodeFunction_unkeyed w f Hkey). simpl. repeat split.
Qed.

(** ** Promises settling *)

Lemma settle_lookup (w : Worker) (i : nat) (op : CipherOp) :
  inflight w !! i = Some op ->
  settle w i =
    match op_output op with
    | Some (d, f) => controller_enqueue (set_inflight w (delete i (inflight w))) d f
    | None => set_inflight w (delete i (inflight w))
    end.
Proof. intros Hop. unfold settle. rewrite Hop. reflexivity. Qed.

Lemma delete_snoc {A} (l : list A) (x : A) (i : nat) :
  (i < length l)%nat -> delete i (l ++ [x]) = delete i l ++ [x].
Proof.
  intros Hi. rewrite !delete_take_drop.
  rewrite take_app_le, drop_app_le by lia.
  rewrite <- app_assoc. reflexivity.
Qed.

Lemma key_epoch_settle (w : Worker) (i : nat) : key_epoch (settle w i) = key_epoch w.
Proof.
  unfold settle. destruct (inflight w !! i) as [op|]; [|reflexivity].
  destruct (op_output op) as [[d f]|]; reflexivity.
Qed.

Lemma key_epoch_encodeFunction (w : Worker) (f : EncodedFrame) (entropy : nat -> byte) :
  key_epoch (snd (encodeFunction w f entropy)) = key_epoch w.
Proof.
  unfold encodeFunction. simpl.
  destruct (currentCryptoKey w); reflexivity.
Qed.

Lemma key_epoch_decodeFunction (w : Worker) (f : EncodedFrame) :
  key_epoch (snd (decodeFunction w f)) = key_epoch w.
Proof.
  unfold decodeFunction.
  destruct (if 4 <? byteLength (data f) then _ else _); [|reflexivity].
  simpl. destruct (currentCryptoKey w); reflexivity.
Qed.

(** C10. Neither transform function, nor the callback of a cipher promise,
    changes the current key, the key identifier or the clear-header flag.
    An event that changes one of them is a setCryptoKey message or the
    settlement of a key generation. *)
Theorem frames_preserve_key_epoch :
  (forall (w : Worker) f entropy,
     key_epoch (snd (encodeFunction w f entropy)) = key_epoch w) /\
  (forall (w : Worker) f, key_epoch (snd (decodeFunction w f)) = key_epoch w) /\
  (forall (w : Worker) i, key_epoch (settle w i) = key_epoch w) /\
  (forall (w : Worker) e,
     key_epoch (step w e) <> key_epoch w ->
     (exists material flag, e = ev_message (operation_setCryptoKey material flag)) \/
     (exists r, e = ev_key r)).
Proof.
  split; [exact key_epoch_encodeFunction|].
  split; [exact key_epoch_decodeFunction|].
  split; [exact key_epoch_settle|].
  intros w [m|f entropy|f|i|r] Hne; simpl in Hne.
  - destruct m; try (exfalso; apply Hne; reflexivity). eauto.
  - exfalso. apply Hne, key_epoch_encodeFunction.
  - exfalso. apply Hne, key_epoch_decodeFunction.
  - exfalso. apply Hne, key_epoch_settle.
  - eauto.
Qed.

(** ** Key installation *)

Lemma currentKeyIdentifier_step (w : Worker) (e : Event) :
  currentKeyIdentifier w <= currentKeyIdentifier (step w e).
Proof.
  destruct e as [m|f entropy|f|i|r]; simpl.
  - destruct m; simpl; try lia.
    destruct (strict_neq _ _); lia.
  - pose proof (key_epoch_encodeFunction w f entropy) as H.
    injection H as _ H _. lia.
  - pose proof (key_epoch_decodeFunction w f) as H.
    injection H as _ H _. lia.
  - pose proof (key_epoch_settle w i) as H.
    injection H as _ H _. lia.
  - unfold key_settled. destruct (keys_inflight w); [lia|].
    destruct r; simpl; lia.
Qed.

Lemma currentKeyIdentifier_run (es : list Event) (w : Worker) :
  currentKeyIdentifier w <= currentKeyIdentifier (run w es).
Proof.
  revert w. induction es as [|e es IH]; intros w; simpl; [lia|].
  etransitivity; [apply currentKeyIdentifier_step | apply IH].
Qed.

(** Once a key is installed, one stays installed: no event clears it. So a
    worker without a key never had one. *)
Lemma key_stays_installed_step (w : Worker) (e : Event) :
  is_Some (currentCryptoKey w) -> is_Some (currentCryptoKey (step w e)).
Proof.
  intros Hkey. destruct e as [m|f entropy|f|i|r]; simpl.
  - destruct m; exact Hkey.
  - pose proof (key_epoch_encodeFunction w f entropy) as H.
    injection H as H _ _. rewrite H. exact Hkey.
  - pose proof (key_epoch_decodeFunction w f) as H.
    injection H as H _ _. rewrite H. exact Hkey.
  - pose proof (key_epoch_settle w i) as H.
    injection H as H _ _. rewrite H. exact Hkey.
  - unfold key_settled. destruct (keys_inflight w); [exact Hkey|].
    destruct r; simpl; [eauto | exact Hkey].
Qed.

Lemma key_stays_installed (es : list Event) (w : Worker) :
  is_Some (currentCryptoKey w) -> is_Some (currentCryptoKey (run w es)).
Proof.
  revert w. induction es as [|e es IH]; intros w Hkey; [exact Hkey|].
  apply IH, key_stays_installed_step, Hkey.
Qed.

(** C2, as amended. The key identifier starts at 0. A setCryptoKey message
    adds one to it exactly when the value it carries is not identical to
    the current key, that is, unless that value is [undefined] and no key
    is installed yet; so the identifier never decreases, over any run. The
    message sets the clear-header flag and starts a key generation, and
    leaves the current key as it is: the key is replaced later, when the
    key generation is fulfilled, by the generated key, whatever the message
    carried; that replacement leaves the identifier alone. *)
Theorem setCryptoKey_bookkeeping (w : Worker) (material : JsValue) (flag : bool) :
  let w' := onmessage w (operation_setCryptoKey material flag) in
  currentKeyIdentifier init = 0 /\
  currentKeyIdentifier w' =
    (if strict_neq material (currentCryptoKey w)
     then currentKeyIdentifier w + 1 else currentKeyIdentifier w) /\
  (strict_neq material (currentCryptoKey w) = false
   <-> material = js_undefined /\ currentCryptoKey w = None) /\
  (forall es, currentKeyIdentifier w <= currentKeyIdentifier (run w es)) /\
  currentCryptoKey w' = currentCryptoKey w /\
  useCryptoOffset w' = flag /\
  keys_inflight w' = S (keys_inflight w) /\
  (forall k,
     currentCryptoKey (key_settled w' (key_fulfilled k)) = Some k /\
     currentKeyIdentifier (key_settled w' (key_fulfilled k)) = currentKeyIdentifier w').
Proof.
  intros w'. subst w'. simpl.
  split; [reflexivity|]. split; [reflexivity|]. split.
  { destruct material, (currentCryptoKey w); simpl; split;
      try discriminate; try tauto; intros [? ?]; discriminate. }
  split; [intros es; apply currentKeyIdentifier_run|].
  repeat split.
Qed.

(** ** Failures *)

(** C6, as amended. When the decryption of a frame is rejected, the frame
    is dropped: settling its promise only removes the operation from those
    in flight. Nothing is enqueued and nothing is reported (the worker has
    no failure hook, and the console stays as it was). A frame that arrives
    afterwards is processed exactly as it would have been otherwise. *)
Theorem authentication_failure_drops_frame (w : Worker) (i : nat)
    (key : CryptoKey) (iv dataToDec dataHeader : bytes) (f : EncodedFrame) :
  inflight w !! i = Some (op_decrypt key iv dataToDec dataHeader f) ->
  subtle_decrypt key iv dataToDec = None ->
  settle w i = set_inflight w (delete i (inflight w)) /\
  enqueued (settle w i) = enqueued w /\
  console (settle w i) = console w /\
  forall f2,
    decodeFunction (settle w i) f2
    = (fst (decodeFunction w f2),
       set_inflight (snd (decodeFunction w f2))
         (delete i (inflight (snd (decodeFunction w f2))))).
Proof.
  intros Hop Hrej.
  assert (settle w i = set_inflight w (delete i (inflight w))) as Hsettle.
  { rewrite (settle_lookup _ _ _ Hop). simpl. rewrite Hrej. reflexivity. }
  rewrite Hsettle. repeat split.
  intros f2. destruct (currentCryptoKey w) as [k|] eqn:Hkey.
  - rewrite (decodeFunction_keyed w f2 k Hkey).
    rewrite (decodeFunction_keyed (set_inflight w _) f2 k Hkey).
    simpl. rewrite delete_snoc by (eapply lookup_lt_Some, Hop). reflexivity.
  - rewrite (decodeFunction_unkeyed w f2 Hkey).
    rewrite (decodeFunction_unkeyed (set_inflight w _) f2 Hkey).
    reflexivity.
Qed.


(** ** Order of emission *)

Lemma omap_cons_app {A B} (g : A -> option B) (x : A) (l : list A) :
  omap g (x :: l) = omap g [x] ++ omap g l.
Proof. simpl. destruct (g x); reflexivity. Qed.

Lemma omap_snoc {A B} (g : A -> option B) (l : list A) (x : A) :
  omap g (l ++ [x]) = omap g l ++ omap g [x].
Proof. apply omap_app. Qed.

Lemma of_stream_app (d : Direction) (l1 l2 : list (Direction * EncodedFrame)) :
  of_stream d (l1 ++ l2) = of_stream d l1 ++ of_stream d l2.
Proof. apply omap_app. Qed.

Lemma op_output_direction (op : CipherOp) (d : Direction) (g : EncodedFrame) :
  op_output op = Some (d, g) -> d = op_direction op.
Proof.
  destruct op as [key iv body hdr f|key iv body hdr f]; simpl.
  - destruct (subtle_encrypt _ _ _); [|discriminate]. simpl.
    destruct (encrypt_then _ _ _); [|discriminate]. simpl. congruence.
  - destruct (subtle_decrypt _ _ _); [|discriminate]. simpl.
    destruct (decrypt_then _ _); [|discriminate]. simpl. congruence.
Qed.

(** The operations of another stream yield nothing for this one. *)
Lemma of_stream_other (d : Direction) (ops : list CipherOp) :
  forallb (fun op' => negb (Direction_eqb (op_direction op') d)) ops = true ->
  of_stream d (omap op_output ops) = [].
Proof.
  induction ops as [|op ops IH]; [reflexivity|].
  simpl forallb. intros [Hop Hops]%andb_true_iff.
  rewrite omap_cons_app, of_stream_app, (IH Hops), app_nil_r.
  simpl. destruct (op_output op) as [[d' g]|] eqn:Hout; [|reflexivity].
  apply op_output_direction in Hout. subst d'.
  unfold of_stream. simpl.
  destruct (Direction_eqb (op_direction op) d); [discriminate | reflexivity].
Qed.

Lemma of_stream_result_other (d : Direction) (op : CipherOp) :
  Direction_eqb (op_direction op) d = false ->
  of_stream d (option_list (op_output op)) = [].
Proof.
  intros Hd. destruct (op_output op) as [[d' g]|] eqn:Hout; [|reflexivity].
  apply op_output_direction in Hout. subst d'.
  unfold of_stream. simpl. rewrite Hd. reflexivity.
Qed.

Lemma Direction_eqb_eq (a b : Direction) : Direction_eqb a b = true -> a = b.
Proof. destruct a, b; (reflexivity || discriminate). Qed.

Lemma omap_option_list {A B} (g : A -> option B) (x : A) :
  omap g [x] = option_list (g x).
Proof. simpl. destruct (g x); reflexivity. Qed.

(** Every event appends what it releases to the frames enqueued. *)
Lemma enqueued_step (w : Worker) (e : Event) :
  enqueued (step w e) = enqueued w ++ emitted w e.
Proof.
  destruct e as [m|f entropy|f|i|r]; simpl.
  - destruct m; simpl; rewrite app_nil_r; reflexivity.
  - unfold encodeFunction. simpl.
    destruct (currentCryptoKey w); simpl; rewrite ?app_nil_r; reflexivity.
  - destruct (currentCryptoKey w) as [key|] eqn:Hkey.
    + rewrite (decodeFunction_keyed w f key Hkey). simpl.
      rewrite app_nil_r. reflexivity.
    + rewrite (decodeFunction_unkeyed w f Hkey). reflexivity.
  - unfold settle. destruct (inflight w !! i) as [op|]; [|rewrite app_nil_r; reflexivity].
    destruct (op_output op) as [[d g]|]; simpl; rewrite ?app_nil_r; reflexivity.
  - unfold key_settled. destruct (keys_inflight w); [rewrite app_nil_r; reflexivity|].
    destruct r; simpl; rewrite app_nil_r; reflexivity.
Qed.

Lemma enqueued_run (es : list Event) (w : Worker) :
  enqueued (run w es) = enqueued w ++ emissions w es.
Proof.
  revert w. induction es as [|e es IH]; intros w; simpl emissions.
  { simpl. rewrite app_nil_r. reflexivity. }
  change (run w (e :: es)) with (run (step w e) es).
  rewrite IH, enqueued_step, <- app_assoc. reflexivity.
Qed.

(** A worker without a key has nothing in flight: no event breaks this. *)
Lemma idle_without_key_step (w : Worker) (e : Event) :
  (currentCryptoKey w = None -> inflight w = []) ->
  currentCryptoKey (step w e) = None -> inflight (step w e) = [].
Proof.
  intros Hidle Hnone.
  destruct (currentCryptoKey w) as [key|] eqn:Hkey.
  { destruct (key_stays_installed_step w e) as [k Hk]; [rewrite Hkey; eauto|].
    congruence. }
  specialize (Hidle eq_refl).
  destruct e as [m|f entropy|f|i|r]; simpl in *.
  - destruct m; exact Hidle.
  - unfold encodeFunction. simpl. rewrite Hkey. exact Hidle.
  - rewrite (decodeFunction_unkeyed w f Hkey). exact Hidle.
  - unfold settle. rewrite Hidle, lookup_nil. exact Hidle.
  - unfold key_settled in *. destruct (keys_inflight w); [exact Hidle|].
    destruct r; [discriminate Hnone | exact Hidle].
Qed.

(** For each stream, an event whose promise, if it settles one, is the
    oldest of its stream adds the result of the frame that arrives, if one
    does, behind what is enqueued and in flight for that stream. *)
Lemma stream_step (w : Worker) (e : Event) (d : Direction) :
  (currentCryptoKey w = None -> inflight w = []) ->
  settles_oldest w e = true ->
  of_stream d (enqueued (step w e))
    ++ of_stream d (omap op_output (inflight (step w e)))
  = (of_stream d (enqueued w) ++ of_stream d (omap op_output (inflight w)))
    ++ of_stream d (frame_result w e).
Proof.
  intros Hidle Hold.
  destruct e as [m|f entropy|f|i|r]; simpl step; simpl frame_result.
  - assert (enqueued (onmessage w m) = enqueued w /\
            inflight (onmessage w m) = inflight w) as [-> ->]
      by (destruct m; auto).
    rewrite app_nil_r. reflexivity.
  - destruct (currentCryptoKey w) as [key|] eqn:Hkey.
    + rewrite (encodeFunction_keyed w f entropy key Hkey). simpl.
      rewrite omap_snoc, of_stream_app, omap_option_list, app_assoc. reflexivity.
    + unfold encodeFunction. simpl. rewrite Hkey. simpl.
      rewrite (Hidle eq_refl). simpl.
      rewrite of_stream_app, !app_nil_r. reflexivity.
  - destruct (currentCryptoKey w) as [key|] eqn:Hkey.
    + rewrite (decodeFunction_keyed w f key Hkey). simpl.
      rewrite omap_snoc, of_stream_app, omap_option_list, app_assoc. reflexivity.
    + rewrite (decodeFunction_unkeyed w f Hkey). simpl.
      rewrite (Hidle eq_refl). simpl.
      rewrite of_stream_app, !app_nil_r. reflexivity.
  - simpl in Hold. unfold settle.
    destruct (inflight w !! i) as [op|] eqn:Hop; [|rewrite app_nil_r; reflexivity].
    assert (enqueued
              (match op_output op with
               | Some (d0, g) =>
                   controller_enqueue (set_inflight w (delete i (inflight w))) d0 g
               | None => set_inflight w (delete i (inflight w))
               end) = enqueued w ++ option_list (op_output op) /\
            inflight
              (match op_output op with
               | Some (d0, g) =>
                   controller_enqueue (set_inflight w (delete i (inflight w))) d0 g
               | None => set_inflight w (delete i (inflight w))
               end) = delete i (inflight w)) as [-> ->].
    { destruct (op_output op) as [[d0 g]|]; simpl; rewrite ?app_nil_r; auto. }
    rewrite app_nil_r, delete_take_drop.
    rewrite <- (take_drop_middle (inflight w) i op Hop) at 3.
    rewrite !omap_app, omap_cons_app, omap_option_list, !of_stream_app.
    destruct (Direction_eqb (op_direction op) d) eqn:Hd.
    + apply Direction_eqb_eq in Hd. subst d.
      rewrite (of_stream_other _ _ Hold). simpl.
      rewrite <- !app_assoc. reflexivity.
    + rewrite (of_stream_result_other _ _ Hd). simpl.
      rewrite app_nil_r. reflexivity.
  - assert (enqueued (key_settled w r) = enqueued w /\
            inflight (key_settled w r) = inflight w) as [-> ->].
    { unfold key_settled. destruct (keys_inflight w); [auto|]. destruct r; auto. }
    rewrite app_nil_r. reflexivity.
Qed.

Lemma stream_run (es : list Event) (w : Worker) (d : Direction) :
  (currentCryptoKey w = None -> inflight w = []) ->
  settles_in_order w es = true ->
  of_stream d (enqueued (run w es))
    ++ of_stream d (omap op_output (inflight (run w es)))
  = (of_stream d (enqueued w) ++ of_stream d (omap op_output (inflight w)))
    ++ of_stream d (results_in_arrival_order w es).
Proof.
  revert w. induction es as [|e es IH]; intros w Hidle Hord.
  { simpl. rewrite app_nil_r. reflexivity. }
  simpl in Hord. apply andb_true_iff in Hord as [He Hes].
  change (run w (e :: es)) with (run (step w e) es).
  rewrite (IH _ (idle_without_key_step w e Hidle) Hes).
  rewrite (stream_step w e d Hidle He).
  simpl results_in_arrival_order. rewrite of_stream_app, <- !app_assoc.
  reflexivity.
Qed.

Lemma idle_without_key_run (es : list Event) (w : Worker) :
  (currentCryptoKey w = None -> inflight w = []) ->
  currentCryptoKey (run w es) = None -> inflight (run w es) = [].
Proof.
  revert w. induction es as [|e es IH]; intros w Hidle; [exact Hidle|].
  apply (IH (step w e)), idle_without_key_step, Hidle.
Qed.

(** C9, as amended. Frames are enqueued in the order in which their
    promises settle, whatever that order: over any run from any state, the
    frames enqueued are those the events release, in the order of the
    events. In any state [w] the worker can reach, over any further run in
    which the promises of each stream settle in the order in which they were
    made, whatever messages and key changes come in between and whatever
    the other stream does: for each stream, the frames enqueued followed by
    what the operations in flight will yield are the results of the frames
    in the order of their arrival; so once nothing is in flight, the frames
    of each stream have been enqueued in the order of their arrival. *)
Theorem oldest_first_preserves_order (es0 es : list Event) (w0 : Worker) :
  enqueued (run w0 es) = enqueued w0 ++ emissions w0 es /\
  (let w := run init es0 in
   settles_in_order w es = true ->
   forall d,
     of_stream d (enqueued (run w es))
       ++ of_stream d (omap op_output (inflight (run w es)))
     = (of_stream d (enqueued w) ++ of_stream d (omap op_output (inflight w)))
       ++ of_stream d (results_in_arrival_order w es) /\
     (inflight w = [] -> inflight (run w es) = [] ->
      of_stream d (enqueued (run w es))
      = of_stream d (enqueued w) ++ of_stream d (results_in_arrival_order w es))).
Proof.
  split; [apply enqueued_run|].
  intros w Hord d.
  assert (currentCryptoKey w = None -> inflight w = []) as Hidle.
  { apply idle_without_key_run. intros _. reflexivity. }
  pose proof (stream_run es w d Hidle Hord) as Hinv.
  split; [exact Hinv|].
  intros Hw Hrun. rewrite Hw, Hrun in Hinv. simpl in Hinv.
  rewrite !app_nil_r in Hinv. exact Hinv.
Qed.

(** * Further properties of the frame cipher *)

Lemma slice_byteLength (buf : bytes) (a b : Z) :
  byteLength (slice buf (Some a) (Some b))
  = Z.max (relative_index (byteLength buf) b - relative_index (byteLength buf) a) 0.
Proof.
  unfold slice, ToIntegerOrInfinity.
  set (len := byteLength buf).
  assert (0 <= relative_index len a <= len /\ 0 <= relative_index len b <= len)
    as [Ha Hb].
  { pose proof (byteLength_nonneg buf). fold len in H.
    unfold relative_index.
    destruct (Z.ltb_spec a 0), (Z.ltb_spec b 0); lia. }
  unfold byteLength at 1. rewrite length_take, length_drop.
  unfold len, byteLength in *. lia.
Qed.

(** Decoding an envelope made of a header of the clear-header length, a
    ciphertext the primitive accepts and a nonce of 12 bytes. *)
Lemma decrypt_frame_sealed (key : CryptoKey) (flag : bool) (f : EncodedFrame)
    (header ciphertext iv body : bytes) :
  cryptoOffset flag f = Some (byteLength header) ->
  byteLength iv = 12 ->
  subtle_decrypt key iv ciphertext = Some body ->
  decrypt_frame key flag (set_data f (header ++ ciphertext ++ iv))
  = Some (set_data f (header ++ body)).
Proof.
  intros Hoff Hiv Hdec. unfold decrypt_frame.
  rewrite decrypt_call_envelope by assumption.
  simpl. rewrite Hdec. simpl. rewrite decrypt_then_concat. reflexivity.
Qed.

(** A payload no longer than its clear header is not encrypted at all: the
    envelope is the whole payload in clear, then the encryption of no bytes,
    then the nonce. *)
Theorem short_payload_sent_in_clear (key : CryptoKey) (flag : bool)
    (entropy : nat -> byte) (f env : EncodedFrame) (hl : Z) :
  cryptoOffset flag f = Some hl ->
  byteLength (data f) <= hl ->
  encrypt_frame key flag entropy f = Some env ->
  let iv := getRandomValues entropy (Uint8Array_new 12) in
  exists tag,
    subtle_encrypt key iv [] = Some tag /\
    data env = data f ++ tag ++ iv.
Proof.
  intros Hoff Hlen Henc iv.
  destruct (encrypt_frame_inv _ _ _ _ _ _ Hoff Henc) as (ct & Hct & ->).
  assert (length (data f) <= Z.to_nat hl)%nat as Hn
    by (unfold byteLength in Hlen; lia).
  rewrite drop_ge in Hct by exact Hn.
  exists ct. split; [exact Hct|].
  simpl. rewrite take_ge by exact Hn. reflexivity.
Qed.

(** With the clear header on, a frame of type "empty" has an undefined
    offset, which [slice] reads as "from the start" and as "to the end": the
    envelope is the whole payload in clear, then the encryption of the whole
    payload, then the nonce. The decoder takes the whole envelope for the
    header, so whatever it returns starts with the envelope. *)
Theorem empty_type_payload_in_clear (key : CryptoKey) (entropy : nat -> byte)
    (f env : EncodedFrame) :
  type f = Some type_empty ->
  encrypt_frame key true entropy f = Some env ->
  let iv := getRandomValues entropy (Uint8Array_new 12) in
  (exists ciphertext,
     subtle_encrypt key iv (data f) = Some ciphertext /\
     data env = data f ++ ciphertext ++ iv) /\
  (forall out, decrypt_frame key true env = Some out ->
     exists body, data out = data env ++ body).
Proof.
  intros Htype Henc iv.
  assert (forall g, type g = Some type_empty -> cryptoOffset true g = None) as Hnone.
  { intros g Hg. rewrite cryptoOffset_cases, Hg. reflexivity. }
  split.
  - unfold encrypt_frame, encrypt_call in Henc.
    rewrite (Hnone f Htype), slice_all, slice_to_end in Henc. simpl in Henc.
    fold iv in Henc.
    destruct (subtle_encrypt key iv (data f)) as [ct|]; [|discriminate].
    simpl in Henc. rewrite encrypt_then_concat in Henc. simpl in Henc.
    injection Henc as <-. eauto.
  - intros out Hdec.
    assert (type env = Some type_empty) as Henv.
    { unfold encrypt_frame in Henc.
      destruct (op_output _) as [[d g]|] eqn:Hout; [|discriminate].
      simpl in Henc. injection Henc as <-.
      unfold encrypt_call in Hout. simpl in Hout.
      destruct (subtle_encrypt _ _ _); [|discriminate]. simpl in Hout.
      destruct (encrypt_then _ _ _); [|discriminate]. simpl in Hout.
      injection Hout as _ <-. exact Htype. }
    unfold decrypt_frame, decrypt_call in Hdec.
    rewrite (Hnone env Henv), slice_to_end in Hdec. simpl in Hdec.
    destruct (subtle_decrypt _ _ _) as [body|]; [|discriminate].
    simpl in Hdec. rewrite decrypt_then_concat in Hdec. simpl in Hdec.
    injection Hdec as <-. eauto.
Qed.

(** When the primitive returns 16 bytes more than it is given, as AES-GCM
    with its 128-bit tag does, every envelope is 28 bytes longer than the
    payload, whatever the length of the payload. *)
Theorem envelope_overhead (key : CryptoKey) (flag : bool)
    (entropy : nat -> byte) (f env : EncodedFrame) (hl : Z) :
  (forall iv p c, subtle_encrypt key iv p = Some c ->
                  byteLength c = byteLength p + 16) ->
  cryptoOffset flag f = Some hl ->
  encrypt_frame key flag entropy f = Some env ->
  byteLength (data env) = byteLength (data f) + 28.
Proof.
  intros Htag Hoff Henc.
  destruct (encrypt_frame_inv _ _ _ _ _ _ Hoff Henc) as (ct & Hct & ->).
  apply Htag in Hct. simpl.
  rewrite !byteLength_app, Hct, iv_byteLength.
  rewrite <- (take_drop (Z.to_nat hl) (data f)) at 3.
  rewrite byteLength_app. lia.
Qed.

(** When the primitive rejects a ciphertext of fewer than 16 bytes, as
    AES-GCM with its 128-bit tag does, a frame of fewer than [hl + 28] bytes
    is never decoded: its decryption is rejected. *)
Theorem short_envelope_rejected (key : CryptoKey) (flag : bool)
    (f : EncodedFrame) (hl : Z) :
  (forall iv c, byteLength c < 16 -> subtle_decrypt key iv c = None) ->
  cryptoOffset flag f = Some hl ->
  byteLength (data f) < hl + 28 ->
  decrypt_frame key flag f = None.
Proof.
  intros Hshort Hoff Hlen.
  pose proof (cryptoOffset_range _ _ _ Hoff) as [Hlo _].
  unfold decrypt_frame, decrypt_call. rewrite Hoff. simpl.
  rewrite Hshort; [reflexivity|].
  rewrite slice_byteLength.
  pose proof (byteLength_nonneg (data f)).
  unfold relative_index.
  destruct (Z.ltb_spec hl 0), (Z.ltb_spec (byteLength (data f) - 12) 0); lia.
Qed.

(** The clear header is not authenticated. If the first [hl] bytes of an
    envelope are replaced on the way, the decoder still accepts the
    envelope, and returns the replaced header followed by the original
    body. *)
Theorem clear_header_not_authenticated (key : CryptoKey) (flag : bool)
    (entropy : nat -> byte) (f env : EncodedFrame) (hl : Z) (header' : bytes) :
  (forall iv p c, subtle_encrypt key iv p = Some c -> subtle_decrypt key iv c = Some p) ->
  cryptoOffset flag f = Some hl ->
  hl <= byteLength (data f) ->
  encrypt_frame key flag entropy f = Some env ->
  byteLength header' = hl ->
  decrypt_frame key flag (set_data env (header' ++ drop (Z.to_nat hl) (data env)))
  = Some (set_data f (header' ++ drop (Z.to_nat hl) (data f))).
Proof.
  intros Haead Hoff Hlen Henc Hhdr.
  pose proof (cryptoOffset_range _ _ _ Hoff) as [Hlo _].
  destruct (encrypt_frame_inv _ _ _ _ _ _ Hoff Henc) as (ct & Hct & ->).
  simpl data.
  rewrite drop_app_length' by (unfold byteLength in Hlen; rewrite length_take; lia).
  change (set_data (set_data f ?d) ?d') with (set_data f d').
  apply decrypt_frame_sealed.
  - rewrite Hhdr. exact Hoff.
  - apply iv_byteLength.
  - apply Haead, Hct.
Qed.

(** * Further properties of the worker *)

Lemma encrypt_frame_output (key : CryptoKey) (flag : bool)
    (entropy : nat -> byte) (f env : EncodedFrame) :
  encrypt_frame key flag entropy f = Some env ->
  op_output (encrypt_call key flag entropy f) = Some (send, env).
Proof.
  unfold encrypt_frame, encrypt_call. simpl.
  destruct (subtle_encrypt _ _ _); [|discriminate]. simpl.
  destruct (encrypt_then _ _ _); [|discriminate]. simpl.
  intros [= <-]. reflexivity.
Qed.

Lemma decrypt_frame_output (key : CryptoKey) (flag : bool) (f out : EncodedFrame) :
  decrypt_frame key flag f = Some out ->
  op_output (decrypt_call key flag f) = Some (recv, out).
Proof.
  unfold decrypt_frame, decrypt_call. simpl.
  destruct (subtle_decrypt _ _ _); [|discriminate]. simpl.
  destruct (decrypt_then _ _); [|discriminate]. simpl.
  intros [= <-]. reflexivity.
Qed.

Lemma settle_last (w : Worker) (op : CipherOp) :
  settle (set_inflight w (inflight w ++ [op])) (length (inflight w))
  = match op_output op with
    | Some (d, g) => controller_enqueue (set_inflight w (inflight w)) d g
    | None => set_inflight w (inflight w)
    end.
Proof.
  rewrite (settle_lookup _ _ op) by (simpl; apply list_lookup_middle; reflexivity).
  simpl. rewrite delete_middle, app_nil_r.
  destruct (op_output op) as [[d g]|]; reflexivity.
Qed.

(** One worker serves both directions with one key. Under a key and with
    nothing in flight, a frame that is encoded and whose envelope is then
    decoded comes out as it went in: the envelope is enqueued to the sender's
    controller, the original frame to the receiver's, and nothing stays in
    flight. *)
Theorem loopback (w : Worker) (key : CryptoKey) (entropy : nat -> byte)
    (f env : EncodedFrame) (hl : Z) :
  (forall iv p c, subtle_encrypt key iv p = Some c -> subtle_decrypt key iv c = Some p) ->
  currentCryptoKey w = Some key ->
  inflight w = [] ->
  cryptoOffset (useCryptoOffset w) f = Some hl ->
  hl <= byteLength (data f) ->
  encrypt_frame key (useCryptoOffset w) entropy f = Some env ->
  let w' := run w [ev_encode f entropy; ev_settle 0; ev_decode env; ev_settle 0] in
  enqueued w' = enqueued w ++ [(send, env); (recv, f)] /\
  inflight w' = [] /\
  key_epoch w' = key_epoch w.
Proof.
  intros Haead Hkey Hempty Hoff Hlen Henc w'.
  pose proof (cryptoOffset_range _ _ _ Hoff) as [Hlo _].
  pose proof (encrypt_frame_output _ _ _ _ _ Henc) as Hout.
  assert (op_output (decrypt_call key (useCryptoOffset w) env) = Some (recv, f))
    as Hback.
  { apply decrypt_frame_output.
    destruct (encrypt_frame_inv _ _ _ _ _ _ Hoff Henc) as (ct & Hct & ->).
    rewrite (decrypt_frame_sealed key _ f _ ct _ (drop (Z.to_nat hl) (data f))).
    - rewrite take_drop, set_data_data. reflexivity.
    - replace (byteLength (take (Z.to_nat hl) (data f))) with hl; [exact Hoff|].
      unfold byteLength in *. rewrite length_take. lia.
    - apply iv_byteLength.
    - apply Haead, Hct. }
  subst w'. unfold run. simpl fold_left.
  rewrite (encodeFunction_keyed w f entropy key Hkey). simpl snd.
  rewrite Hempty. simpl app.
  set (op1 := encrypt_call key (useCryptoOffset w) entropy f) in *.
  set (w1 := set_inflight (set_scount w (scount w + 1)) [op1]).
  rewrite (settle_lookup w1 0 op1 eq_refl), Hout.
  set (w2 := controller_enqueue _ send env).
  rewrite (decodeFunction_keyed w2 env key Hkey). simpl snd.
  set (op2 := decrypt_call key (useCryptoOffset w2) env).
  set (w3 := set_inflight _ _).
  rewrite (settle_lookup w3 0 op2 eq_refl).
  change (op_output op2) with (op_output (decrypt_call key (useCryptoOffset w) env)).
  rewrite Hback. simpl. rewrite <- app_assoc. repeat split.
Qed.

(** A change of key or of flag spares the frames in flight: a cipher
    promise settles to the same effect before and after a message and
    before and after the settlement of a key generation. Each operation
    keeps the key and the header length it started with. *)
Theorem key_install_spares_frames_in_flight (w : Worker) (i : nat) :
  (forall m, settle (onmessage w m) i = onmessage (settle w i) m) /\
  (forall r, settle (key_settled w r) i = key_settled (settle w i) r).
Proof.
  split.
  - intros m. unfold settle.
    destruct m; simpl; try reflexivity.
    destruct (inflight w !! i) as [op|]; [|reflexivity].
    destruct (op_output op) as [[d g]|]; reflexivity.
  - intros r. unfold settle, key_settled.
    destruct (keys_inflight w) eqn:Hn; simpl.
    + destruct (inflight w !! i) as [op|]; simpl; rewrite ?Hn; [|reflexivity].
      destruct (op_output op) as [[d g]|]; simpl; rewrite Hn; reflexivity.
    + destruct r; simpl;
        (destruct (inflight w !! i) as [op|]; simpl; rewrite ?Hn; [|reflexivity]);
        destruct (op_output op) as [[d g]|]; simpl; rewrite Hn; reflexivity.
Qed.

(** Once a key is installed, the key identifier counts the setCryptoKey
    messages, whatever they carry and whether or not their key generations
    have settled or succeeded. *)
Theorem identifier_counts_messages (es : list Event) (w : Worker) :
  is_Some (currentCryptoKey w) ->
  currentKeyIdentifier (run w es)
  = currentKeyIdentifier w + Z.of_nat (length (List.filter is_setCryptoKey es)).
Proof.
  revert w. induction es as [|e es IH]; intros w Hkey; [simpl; lia|].
  change (run w (e :: es)) with (run (step w e) es).
  rewrite (IH _ (key_stays_installed_step w e Hkey)).
  assert (currentKeyIdentifier (step w e)
          = currentKeyIdentifier w + (if is_setCryptoKey e then 1 else 0)) as ->.
  { destruct e as [m|f entropy|f|i|r]; simpl.
    - destruct m; simpl; try lia.
      destruct Hkey as [k ->]. destruct material; simpl; lia.
    - pose proof (key_epoch_encodeFunction w f entropy) as H.
      injection H as _ H _. lia.
    - pose proof (key_epoch_decodeFunction w f) as H.
      injection H as _ H _. lia.
    - pose proof (key_epoch_settle w i) as H.
      injection H as _ H _. lia.
    - unfold key_settled. destruct (keys_inflight w); [lia|].
      destruct r; simpl; lia. }
  simpl List.filter. destruct (is_setCryptoKey e); simpl length; lia.
Qed.

(** Until a key generation is fulfilled the worker is transparent: from a
    state without key and with nothing in flight, over any run in which no
    key generation is fulfilled (setCryptoKey messages and failed
    generations included), the frames enqueued are exactly the frames
    handed in, unchanged, in their order and to their own controllers. *)
Theorem transparent_until_key (es : list Event) (w : Worker) :
  currentCryptoKey w = None ->
  inflight w = [] ->
  Forall (fun e => installs_key e = false) es ->
  enqueued (run w es) = enqueued w ++ omap submitted es /\
  currentCryptoKey (run w es) = None /\
  inflight (run w es) = [].
Proof.
  revert w. induction es as [|e es IH]; intros w Hkey Hempty Hall.
  { simpl. rewrite app_nil_r. auto. }
  inversion Hall as [|? ? He Hes]; subst.
  change (run w (e :: es)) with (run (step w e) es).
  assert (enqueued (step w e) = enqueued w ++ omap submitted [e] /\
          currentCryptoKey (step w e) = None /\
          inflight (step w e) = []) as (Hout & Hk & Hin).
  { destruct e as [m|f entropy|f|i|r]; simpl step.
    - destruct m; simpl; rewrite ?app_nil_r; auto.
    - unfold encodeFunction. simpl. rewrite Hkey. simpl. auto.
    - rewrite (decodeFunction_unkeyed w f Hkey). simpl. auto.
    - unfold settle. rewrite Hempty. simpl. rewrite app_nil_r. auto.
    - unfold key_settled. destruct (keys_inflight w).
      + simpl. rewrite app_nil_r. auto.
      + destruct r; [discriminate He|]. simpl. rewrite app_nil_r. auto. }
  destruct (IH _ Hk Hin Hes) as (IHout & IHk & IHin).
  rewrite IHout, Hout, (omap_cons_app _ e es), <- app_assoc. auto.
Qed.

(** ** No frame is invented, relabelled or duplicated *)

Lemma op_output_origin (op : CipherOp) (d : Direction) (g : EncodedFrame) :
  op_output op = Some (d, g) ->
  d = op_direction op /\ metadata g = metadata (op_frame op).
Proof.
  destruct op as [key iv body hdr f|key iv body hdr f]; simpl.
  - destruct (subtle_encrypt _ _ _); [|discriminate]. simpl.
    destruct (encrypt_then _ _ _); [|discriminate]. simpl.
    intros [= <- <-]. split; reflexivity.
  - destruct (subtle_decrypt _ _ _); [|discriminate]. simpl.
    destruct (decrypt_then _ _); [|discriminate]. simpl.
    intros [= <- <-]. split; reflexivity.
Qed.

Lemma stems_from_app_l (S S' : list (Direction * EncodedFrame)) d g :
  stems_from S d g -> stems_from (S ++ S') d g.
Proof. intros (f & Hin & Hm). exists f. rewrite elem_of_app. auto. Qed.

Lemma stems_from_step (S : list (Direction * EncodedFrame)) (w : Worker) (e : Event) :
  (forall d g, (d, g) ∈ enqueued w -> stems_from S d g) ->
  (forall op, op ∈ inflight w -> stems_from S (op_direction op) (op_frame op)) ->
  (forall d g, (d, g) ∈ enqueued (step w e) ->
     stems_from (S ++ omap submitted [e]) d g) /\
  (forall op, op ∈ inflight (step w e) ->
     stems_from (S ++ omap submitted [e]) (op_direction op) (op_frame op)).
Proof.
  intros Hout Hin.
  assert (forall d f, stems_from (S ++ [(d, f)]) d f) as Hnew.
  { intros d f. exists f. rewrite elem_of_app, list_elem_of_singleton. auto. }
  destruct e as [m|f entropy|f|i|r]; simpl step.
  - assert (enqueued (onmessage w m) = enqueued w /\
            inflight (onmessage w m) = inflight w) as [-> ->]
      by (destruct m; auto).
    split; intros; apply stems_from_app_l; auto.
  - unfold encodeFunction. simpl.
    destruct (currentCryptoKey w) as [key|]; simpl; split.
    + intros d g Hg. apply stems_from_app_l, Hout, Hg.
    + intros op [Hop|Hop]%elem_of_app.
      * apply stems_from_app_l, Hin, Hop.
      * apply list_elem_of_singleton in Hop. subst op. apply Hnew.
    + intros d g [Hg|Hg]%elem_of_app.
      * apply stems_from_app_l, Hout, Hg.
      * apply list_elem_of_singleton in Hg. injection Hg as -> ->. apply Hnew.
    + intros op Hop. apply stems_from_app_l, Hin, Hop.
  - destruct (currentCryptoKey w) as [key|] eqn:Hkey.
    + rewrite (decodeFunction_keyed w f key Hkey). simpl. split.
      * intros d g Hg. apply stems_from_app_l, Hout, Hg.
      * intros op [Hop|Hop]%elem_of_app.
        -- apply stems_from_app_l, Hin, Hop.
        -- apply list_elem_of_singleton in Hop. subst op. apply Hnew.
    + rewrite (decodeFunction_unkeyed w f Hkey). simpl. split.
      * intros d g [Hg|Hg]%elem_of_app.
        -- apply stems_from_app_l, Hout, Hg.
        -- apply list_elem_of_singleton in Hg. injection Hg as -> ->. apply Hnew.
      * intros op Hop. apply stems_from_app_l, Hin, Hop.
  - unfold settle. destruct (inflight w !! i) as [op|] eqn:Hop.
    2:{ split; intros; apply stems_from_app_l; auto. }
    assert (forall op', op' ∈ delete i (inflight w) ->
              stems_from (S ++ omap submitted [ev_settle i])
                (op_direction op') (op_frame op')) as Hrest.
    { intros op' Hop'. apply stems_from_app_l, Hin.
      eapply list_elem_of_delete_inv, Hop'. }
    destruct (op_output op) as [[d0 g0]|] eqn:Hres; simpl; split; try exact Hrest.
    + intros d g [Hg|Hg]%elem_of_app.
      * apply stems_from_app_l, Hout, Hg.
      * apply list_elem_of_singleton in Hg. injection Hg as -> ->.
        destruct (op_output_origin _ _ _ Hres) as [-> Hm].
        destruct (Hin op (list_elem_of_lookup_2 _ _ _ Hop)) as (f & Hf & Hmf).
        apply stems_from_app_l. exists f. split; [exact Hf | congruence].
    + intros d g Hg. apply stems_from_app_l, Hout, Hg.
  - assert (enqueued (key_settled w r) = enqueued w /\
            inflight (key_settled w r) = inflight w) as [-> ->].
    { unfold key_settled. destruct (keys_inflight w); [auto|].
      destruct r; auto. }
    split; intros; apply stems_from_app_l; auto.
Qed.

Lemma stems_from_run (es : list Event) (S : list (Direction * EncodedFrame))
    (w : Worker) :
  (forall d g, (d, g) ∈ enqueued w -> stems_from S d g) ->
  (forall op, op ∈ inflight w -> stems_from S (op_direction op) (op_frame op)) ->
  forall d g, (d, g) ∈ enqueued (run w es) ->
    stems_from (S ++ omap submitted es) d g.
Proof.
  revert S w. induction es as [|e es IH]; intros S w Hout Hin d g Hg.
  { simpl in *. rewrite app_nil_r. apply Hout, Hg. }
  change (run w (e :: es)) with (run (step w e) es) in Hg.
  destruct (stems_from_step S w e Hout Hin) as [Hout' Hin'].
  pose proof (IH _ _ Hout' Hin' d g Hg) as H.
  rewrite <- app_assoc, <- omap_cons_app in H. exact H.
Qed.

(** The worker invents no frame and relabels none. Whatever the events,
    every frame it has enqueued was handed to the transform function of the
    same stream, and carries the type, timestamp and source it came with;
    only the payload may differ. *)
Theorem no_frame_invented (es : list Event) (d : Direction) (g : EncodedFrame) :
  (d, g) ∈ enqueued (run init es) ->
  exists f, (d, f) ∈ omap submitted es /\ metadata g = metadata f.
Proof.
  intros Hg.
  apply (stems_from_run es [] init); [| | exact Hg].
  - intros d' g' H. simpl in H. apply elem_of_nil in H. contradiction.
  - intros op H. simpl in H. apply elem_of_nil in H. contradiction.
Qed.

Lemma accounted_step (w : Worker) (e : Event) :
  (tagged <$> enqueued (step w e)) ++ (op_tagged <$> inflight (step w e))
  ⊆+ ((tagged <$> enqueued w) ++ (op_tagged <$> inflight w))
     ++ (tagged <$> omap submitted [e]).
Proof.
  assert (forall (A B : list (Direction * (option RTCEncodedVideoFrameType * Z * Z))) t,
            (A ++ [t]) ++ B ⊆+ (A ++ B) ++ [t]) as Hswap.
  { intros A B t. apply Permutation_submseteq.
    rewrite <- !app_assoc. apply Permutation_app_head, Permutation_app_comm. }
  destruct e as [m|f entropy|f|i|r]; simpl step.
  - assert (enqueued (onmessage w m) = enqueued w /\
            inflight (onmessage w m) = inflight w) as [-> ->]
      by (destruct m; auto).
    simpl. rewrite app_nil_r. reflexivity.
  - destruct (currentCryptoKey w) as [key|] eqn:Hkey.
    + rewrite (encodeFunction_keyed w f entropy key Hkey). simpl.
      rewrite fmap_app, app_assoc. reflexivity.
    + unfold encodeFunction. simpl. rewrite Hkey. simpl.
      rewrite fmap_app. apply Hswap.
  - destruct (currentCryptoKey w) as [key|] eqn:Hkey.
    + rewrite (decodeFunction_keyed w f key Hkey). simpl.
      rewrite fmap_app, app_assoc. reflexivity.
    + rewrite (decodeFunction_unkeyed w f Hkey). simpl.
      rewrite fmap_app. apply Hswap.
  - simpl. rewrite app_nil_r. unfold settle.
    destruct (inflight w !! i) as [op|] eqn:Hop; [|reflexivity].
    destruct (op_output op) as [[d g]|] eqn:Hout; simpl.
    + destruct (op_output_origin _ _ _ Hout) as [-> Hmeta].
      rewrite fmap_app. simpl.
      change (tagged (op_direction op, g)) with (op_direction op, metadata g).
      rewrite Hmeta. fold (op_tagged op).
      apply Permutation_submseteq.
      rewrite (delete_Permutation (inflight w) i op Hop) at 2.
      rewrite fmap_cons, <- !app_assoc.
      apply Permutation_app_head. simpl. reflexivity.
    + apply submseteq_skips_l, fmap_submseteq, submseteq_delete.
  - assert (enqueued (key_settled w r) = enqueued w /\
            inflight (key_settled w r) = inflight w) as [-> ->].
    { unfold key_settled. destruct (keys_inflight w); [auto|]. destruct r; auto. }
    simpl. rewrite app_nil_r. reflexivity.
Qed.

(** The worker duplicates no frame. Telling frames apart by their stream
    and metadata, over any run the frames enqueued and the operations in
    flight are, counted with multiplicity, among those that were enqueued
    or in flight before and the frames handed in: each frame handed in
    accounts for at most one frame enqueued. What was enqueued stays
    enqueued, in place. *)
Theorem no_frame_duplicated (es : list Event) (w : Worker) :
  (tagged <$> enqueued (run w es)) ++ (op_tagged <$> inflight (run w es))
  ⊆+ ((tagged <$> enqueued w) ++ (op_tagged <$> inflight w))
     ++ (tagged <$> omap submitted es) /\
  enqueued w `prefix_of` enqueued (run w es).
Proof.
  revert w. induction es as [|e es IH]; intros w.
  { simpl. rewrite app_nil_r. split; reflexivity. }
  change (run w (e :: es)) with (run (step w e) es).
  destruct (IH (step w e)) as [IHn IHp]. split.
  - etransitivity; [exact IHn|].
    rewrite (omap_cons_app _ e es), fmap_app, app_assoc.
    apply submseteq_app; [apply accounted_step | reflexivity].
  - etransitivity; [|exact IHp].
    rewrite enqueued_step. apply prefix_app_r. reflexivity.
Qed.

(** ** What is only written *)

Lemma observable_step (w1 w2 : Worker) (e : Event) :
  observable w1 = observable w2 ->
  observable (step w1 e) = observable (step w2 e).
Proof.
  unfold observable. intros [= Hk Hf Hin Hn Hout Hlog].
  destruct e as [m|f entropy|f|i|r]; simpl step.
  - destruct m; simpl; congruence.
  - unfold encodeFunction. simpl. rewrite Hk.
    destruct (currentCryptoKey w2) eqn:Hk2; simpl; congruence.
  - unfold decodeFunction.
    destruct (if 4 <? byteLength (data f) then _ else _); simpl; [|congruence].
    rewrite Hk.
    destruct (currentCryptoKey w2) eqn:Hk2; simpl; congruence.
  - unfold settle. rewrite Hin.
    destruct (inflight w2 !! i) as [op|] eqn:Hop; [|simpl; congruence].
    destruct (op_output op) as [[d g]|]; simpl; congruence.
  - unfold key_settled. rewrite Hn.
    destruct (keys_inflight w2) eqn:Hn2; [simpl; congruence|].
    destruct r; simpl; congruence.
Qed.

(** The packet counters and the key identifier are only ever written: two
    workers that differ in nothing else stay so over any run, enqueueing the
    same frames, holding the same key and flag and the same operations in
    flight. *)
Theorem counters_never_read (es : list Event) (w1 w2 : Worker) :
  observable w1 = observable w2 ->
  observable (run w1 es) = observable (run w2 es).
Proof.
  revert w1 w2. induction es as [|e es IH]; intros w1 w2 H; [exact H|].
  apply (IH (step w1 e) (step w2 e)), observable_step, H.
Qed.

(** * The frame dump *)

Lemma list_ascii_of_string_app (s t : string) :
  list_ascii_of_string (s ++ t) = list_ascii_of_string s ++ list_ascii_of_string t.
Proof. induction s as [|c s IH]; [reflexivity|]. simpl. rewrite IH. reflexivity. Qed.

Lemma dump_piece (b : byte) :
  ((if (Byte.to_N b <? 16)%N then "0" else "") ++ toString16 b)%string
  = two_hex_digits b.
Proof. destruct b; reflexivity. Qed.

Lemma two_hex_digits_chars (b : byte) :
  exists c1 c2,
    list_ascii_of_string (two_hex_digits b) = [c1; c2] /\
    is_white_space c1 = false /\ is_white_space c2 = false.
Proof. destruct b; do 2 eexists; repeat split. Qed.

(** The loop appends, for each of the first [max - j] bytes left, its two
    digits and a space. *)
Lemma dump_loop_chars (data : bytes) (j max : Z) (acc : string) :
  list_ascii_of_string (dump_loop data j max acc)
  = list_ascii_of_string acc
    ++ List.concat
         (map (fun b => list_ascii_of_string (two_hex_digits b) ++ [" "%char])
            (take (Z.to_nat (max - j)) data)).
Proof.
  revert j acc. induction data as [|b rest IH]; intros j acc.
  { rewrite take_nil. simpl. rewrite app_nil_r. reflexivity. }
  simpl dump_loop. destruct (Z.ltb_spec j max) as [Hlt|Hge].
  - rewrite IH.
    replace (Z.to_nat (max - j)) with (S (Z.to_nat (max - (j + 1)))) by lia.
    cbn [firstn map List.concat].
    rewrite <- (dump_piece b), !list_ascii_of_string_app.
    cbn [list_ascii_of_string]. rewrite <- !app_assoc. reflexivity.
  - replace (Z.to_nat (max - j)) with O by lia.
    simpl. rewrite app_nil_r. reflexivity.
Qed.

(** A run of digit pairs, each followed by a space, is the space-separated
    run followed by one space; the latter starts and ends with a digit. *)
Lemma dump_chars_join (b : byte) (bs : list byte) :
  let joined := list_ascii_of_string (String.concat " " (map two_hex_digits (b :: bs))) in
  List.concat
    (map (fun b => list_ascii_of_string (two_hex_digits b) ++ [" "%char]) (b :: bs))
  = joined ++ [" "%char] /\
  (exists c t, joined = c :: t /\ is_white_space c = false) /\
  (exists t c, joined = t ++ [c] /\ is_white_space c = false).
Proof.
  revert b. induction bs as [|b' bs IH]; intros b joined.
  - destruct (two_hex_digits_chars b) as (c1 & c2 & Hb & H1 & H2).
    subst joined. cbn [map String.concat List.concat].
    rewrite app_nil_r, Hb. split; [reflexivity|]. split.
    + exists c1, [c2]. auto.
    + exists [c1], c2. auto.
  - destruct (IH b') as (Hcat & _ & (t & c & Hlast & Hc)).
    destruct (two_hex_digits_chars b) as (c1 & c2 & Hb & H1 & H2).
    assert (joined
            = [c1; c2] ++ [" "%char]
              ++ list_ascii_of_string (String.concat " " (map two_hex_digits (b' :: bs))))
      as Hj.
    { subst joined. cbn [String.concat map].
      rewrite !list_ascii_of_string_app, Hb. reflexivity. }
    split; [|split].
    + change (map ?g (b :: b' :: bs)) with (g b :: map g (b' :: bs)).
      cbn [List.concat]. rewrite Hcat, Hb, Hj.
      rewrite <- !app_assoc. reflexivity.
    + rewrite Hj. exists c1. eexists. split; [reflexivity | exact H1].
    + rewrite Hj, Hlast. exists ([c1; c2] ++ [" "%char] ++ t), c.
      split; [|exact Hc]. rewrite <- !app_assoc. reflexivity.
Qed.

Lemma trim_dump_chars (cs : list ascii) :
  (exists c t, cs = c :: t /\ is_white_space c = false) ->
  (exists t c, cs = t ++ [c] /\ is_white_space c = false) ->
  rev (skip_white_space (rev (skip_white_space (cs ++ [" "%char])))) = cs.
Proof.
  intros (c & t & Hhead & Hc) (t' & c' & Hlast & Hc').
  assert (skip_white_space (cs ++ [" "%char]) = cs ++ [" "%char]) as ->.
  { rewrite Hhead. simpl. rewrite Hc. reflexivity. }
  rewrite rev_app_distr. simpl.
  assert (skip_white_space (rev cs) = rev cs) as ->.
  { rewrite Hlast, rev_app_distr. simpl. rewrite Hc'. reflexivity. }
  apply rev_involutive.
Qed.

(** The third argument [dump] logs is the first [max] bytes of the payload
    (16 when [max] is absent, none when it is not positive, all of them
    when there are fewer), each as two lowercase hexadecimal digits, with
    one space between neighbours and none at either end. *)
Theorem dump_lists_leading_bytes (now direction : string) (f : EncodedFrame)
    (max : option Z) :
  dump now f direction max !! 2%nat
  = Some (String.concat " "
            (map two_hex_digits
               (take (Z.to_nat (match max with Some m => m | None => 16 end))
                  (data f)))).
Proof.
  unfold dump. simpl. f_equal. unfold trim.
  set (m := match max with Some m => m | None => 16 end).
  rewrite dump_loop_chars, Z.sub_0_r.
  change (list_ascii_of_string "" ++ ?l) with l.
  destruct (take (Z.to_nat m) (data f)) as [|b bs]; [reflexivity|].
  destruct (dump_chars_join b bs) as (Hcat & Hhead & Hlast).
  rewrite Hcat, (trim_dump_chars _ Hhead Hlast).
  apply string_of_list_ascii_of_string.
Qed.

End Worker.

Arguments init {CryptoKey}.
Arguments first_install {CryptoKey}.
Arguments encodeFunction {CryptoKey}.
Arguments decodeFunction {CryptoKey}.
Arguments onmessage {CryptoKey}.
Arguments key_settled {CryptoKey}.
Arguments settle {CryptoKey}.
Arguments step {CryptoKey}.
Arguments run {CryptoKey}.
Arguments op_output {CryptoKey}.
Arguments encrypt_call {CryptoKey}.
Arguments decrypt_call {CryptoKey}.
Arguments encrypt_frame {CryptoKey}.
Arguments decrypt_frame {CryptoKey}.
Arguments emitted {CryptoKey}.
Arguments emissions {CryptoKey}.
Arguments frame_result {CryptoKey}.
Arguments results_in_arrival_order {CryptoKey}.
Arguments settles_oldest {CryptoKey}.
Arguments settles_in_order {CryptoKey}.
Arguments op_direction {CryptoKey}.
Arguments op_tagged {CryptoKey}.
Arguments op_frame {CryptoKey}.
Arguments key_epoch {CryptoKey}.
Arguments observable {CryptoKey}.
Arguments submitted {CryptoKey}.
Arguments is_setCryptoKey {CryptoKey}.
Arguments installs_key {CryptoKey}.
Arguments currentCryptoKey {CryptoKey}.
Arguments useCryptoOffset {CryptoKey}.
Arguments currentKeyIdentifier {CryptoKey}.
Arguments scount {CryptoKey}.
Arguments rcount {CryptoKey}.
Arguments inflight {CryptoKey}.
Arguments keys_inflight {CryptoKey}.
Arguments enqueued {CryptoKey}.
Arguments console {CryptoKey}.
Arguments set_scount {CryptoKey}.
Arguments set_rcount {CryptoKey}.
Arguments set_inflight {CryptoKey}.
Arguments controller_enqueue {CryptoKey}.
Arguments op_encrypt {CryptoKey}.
Arguments op_decrypt {CryptoKey}.
Arguments key_fulfilled {CryptoKey}.
Arguments key_rejected {CryptoKey}.
Arguments ev_message {CryptoKey}.
Arguments ev_encode {CryptoKey}.
Arguments ev_decode {CryptoKey}.
Arguments ev_settle {CryptoKey}.
Arguments ev_key {CryptoKey}.

(** * The stand-in primitive *)

Lemma xor_bits_involutive p b : StubCrypto.xor_bits p (StubCrypto.xor_bits p b) = b.
Proof.
  destruct p as (p0 & p1 & p2 & p3 & p4 & p5 & p6 & p7).
  destruct b as (b0 & b1 & b2 & b3 & b4 & b5 & b6 & b7).
  unfold StubCrypto.xor_bits.
  rewrite <- !xorb_assoc, !xorb_nilpotent, !xorb_false_l. reflexivity.
Qed.

Lemma byte_xor_involutive (p b : byte) :
  StubCrypto.byte_xor p (StubCrypto.byte_xor p b) = b.
Proof.
  unfold StubCrypto.byte_xor.
  rewrite Byte.to_bits_of_bits, xor_bits_involutive.
  apply Byte.of_bits_to_bits.
Qed.

Lemma map_byte_xor_involutive (p : byte) (l : bytes) :
  map (StubCrypto.byte_xor p) (map (StubCrypto.byte_xor p) l) = l.
Proof.
  induction l as [|b l IH]; [reflexivity|].
  simpl. rewrite byte_xor_involutive, IH. reflexivity.
Qed.

Lemma bytes_eqb_refl (l : bytes) : StubCrypto.bytes_eqb l l = true.
Proof.
  induction l as [|b l IH]; [reflexivity|].
  simpl. rewrite IH, (Byte.byte_dec_lb eq_refl). reflexivity.
Qed.

(** A key that may decrypt opens what it has sealed. *)
Lemma stub_decrypt_encrypt (k : StubCrypto.CryptoKey) (iv p c : bytes) :
  StubCrypto.usage_decrypt k = true ->
  StubCrypto.encrypt k iv p = Some c ->
  StubCrypto.decrypt k iv c = Some p.
Proof.
  intros Hdec. unfold StubCrypto.encrypt.
  destruct (StubCrypto.usage_encrypt k); [|discriminate].
  intros [= <-]. unfold StubCrypto.decrypt. rewrite Hdec.
  set (body := map (StubCrypto.byte_xor (StubCrypto.pad k iv)) p).
  assert (length (body ++ StubCrypto.tag (StubCrypto.pad k iv) p) - 16
          = length body)%nat as ->.
  { rewrite length_app. unfold StubCrypto.tag. rewrite length_replicate. lia. }
  destruct (Nat.leb_spec 16 (length (body ++ StubCrypto.tag (StubCrypto.pad k iv) p)))
    as [_|Hlt].
  2:{ rewrite length_app in Hlt. unfold StubCrypto.tag in Hlt.
      rewrite length_replicate in Hlt. lia. }
  simpl. rewrite take_app_length, drop_app_length.
  subst body. rewrite map_byte_xor_involutive, bytes_eqb_refl. reflexivity.
Qed.

(** * Runs of the worker on sample frames *)

Local Abbreviation Key := StubCrypto.CryptoKey.
Local Abbreviation enc := StubCrypto.encrypt.
Local Abbreviation dec := StubCrypto.decrypt.
Local Abbreviation full_key := StubCrypto.full_key.

(** C1 at a key frame of 14 bytes under a key fit for both operations. *)
Lemma decrypt_encrypt_roundtrip_witness :
  exists env,
    encrypt_frame enc dec full_key true Sample.entropy Sample.key_frame = Some env /\
    decrypt_frame enc dec full_key true env = Some Sample.key_frame.
Proof.
  eexists. split; [vm_compute; reflexivity|].
  apply (decrypt_encrypt_roundtrip Key enc dec full_key true Sample.entropy
           Sample.key_frame _ 10).
  - intros iv p c. apply stub_decrypt_encrypt. reflexivity.
  - reflexivity.
  - vm_compute. discriminate.
  - vm_compute. reflexivity.
Defined.

(** C1 as stated fails in two ways. A key frame of two bytes is sealed, and
    opening the envelope is refused: the decoder takes ten bytes of the
    envelope for the header, eight of them ciphertext. A frame of type
    "empty" has no clear-header length, and opening its envelope is refused
    as well. *)
Lemma roundtrip_counterexample :
  (exists env,
     encrypt_frame enc dec full_key true Sample.entropy Sample.short_key_frame = Some env /\
     decrypt_frame enc dec full_key true env = None) /\
  (exists env,
     encrypt_frame enc dec full_key true Sample.entropy Sample.empty_type_frame = Some env /\
     decrypt_frame enc dec full_key true env = None).
Proof.
  split; eexists; (split; [vm_compute; reflexivity|]); vm_compute; reflexivity.
Qed.

(** C4 at a key frame of 14 bytes. *)
Lemma envelope_layout_witness :
  exists env ciphertext,
    encrypt_frame enc dec full_key true Sample.entropy Sample.key_frame = Some env /\
    data env = take 10 (data Sample.key_frame) ++ ciphertext
               ++ getRandomValues Sample.entropy (Uint8Array_new 12) /\
    take 10 (data env) = take 10 (data Sample.key_frame).
Proof.
  eexists.
  destruct (envelope_layout Key enc dec full_key true Sample.entropy
              Sample.key_frame _ 10 eq_refl eq_refl)
    as (ct & _ & Hdata & _ & _ & Htake & _).
  exists ct. split; [reflexivity|]. split; [exact Hdata|].
  apply Htake. vm_compute. discriminate.
Defined.

(** C7 as stated fails on a frame of type "empty": its clear-header length
    is [undefined], not a default. *)
Lemma clear_header_length_counterexample :
  cryptoOffset true Sample.empty_type_frame = None.
Proof. reflexivity. Qed.

(** C2 as stated fails. A setCryptoKey message that carries no key leaves
    the identifier of a worker without key at 0. A message that carries a
    key does not install it: the current key stays [undefined] until the
    key generation is fulfilled, and then it is the generated key. *)
Lemma setCryptoKey_counterexample :
  currentKeyIdentifier
    (onmessage (@init Key) (operation_setCryptoKey js_undefined true)) = 0 /\
  currentCryptoKey
    (onmessage (@init Key) (operation_setCryptoKey (js_string "secret") true)) = None /\
  currentCryptoKey
    (key_settled
       (onmessage (@init Key) (operation_setCryptoKey (js_string "secret") true))
       (key_fulfilled full_key)) = Some full_key.
Proof. repeat split. Qed.

(** C3 at a sealed key frame of 42 bytes, 10 of them header. *)
Lemma decode_splits_envelope_witness :
  exists env header ciphertext iv,
    encrypt_frame enc dec full_key true Sample.entropy Sample.key_frame = Some env /\
    decodeFunction (first_install full_key) env
    = (normal,
       set_inflight (set_rcount (first_install full_key) 1)
         [op_decrypt full_key iv ciphertext header env]) /\
    data env = header ++ ciphertext ++ iv /\
    byteLength header = 10 /\
    byteLength iv = 12.
Proof.
  pose proof (fun env => decode_splits_envelope Key (first_install full_key)
                           env full_key eq_refl) as Hthm.
  destruct (encrypt_frame enc dec full_key true Sample.entropy Sample.key_frame)
    as [env|] eqn:Henc; [|vm_compute in Henc; discriminate].
  exists env. destruct (Hthm env) as [Hdecode Hsplit].
  vm_compute in Henc. injection Henc as Henc. subst env.
  destruct (Hsplit 10 eq_refl ltac:(vm_compute; discriminate))
    as (header & ct & iv & Hcall & Hdata & _ & Hhdr & Hiv).
  exists header, ct, iv.
  split; [reflexivity|].
  split; [rewrite Hdecode, Hcall; reflexivity|].
  split; [exact Hdata|]. split; [exact Hhdr | exact Hiv].
Defined.

(** C3 as stated fails on an audio frame of five bytes, eight short of
    header and nonce: [decodeFunction] completes normally and asks the
    primitive to decrypt no bytes at all under a nonce of five bytes, its
    slices being clamped to the buffer. The primitive refuses, and the frame
    is dropped as any frame that fails authentication is: nothing is
    enqueued, nothing is logged. *)
Lemma decode_short_envelope_counterexample :
  byteLength (data Sample.audio_frame) = 5 /\
  cryptoOffset true Sample.audio_frame = Some 1 /\
  decodeFunction (first_install full_key) Sample.audio_frame
  = (normal,
     set_inflight (set_rcount (first_install full_key) 1)
       [op_decrypt full_key [x78; x01; x02; x03; x04] [] [x78] Sample.audio_frame]) /\
  run enc dec (first_install full_key) [ev_decode Sample.audio_frame; ev_settle 0]
  = set_rcount (first_install full_key) 1.
Proof. repeat split. Qed.

(** C5 at the initial worker. *)
Lemma passthrough_without_key_witness :
  enqueued (snd (encodeFunction (@init Key) Sample.key_frame Sample.entropy))
  = [(send, Sample.key_frame)] /\
  enqueued (snd (decodeFunction (@init Key) Sample.key_frame))
  = [(recv, Sample.key_frame)].
Proof.
  destruct (passthrough_without_key Key init Sample.key_frame Sample.entropy eq_refl)
    as [(_ & Henc & _) (_ & Hdec & _)].
  split; [exact Henc | exact Hdec].
Defined.

(** C6 at a forged audio frame of 40 bytes. *)
Lemma authentication_failure_drops_frame_witness :
  let w := snd (decodeFunction (first_install full_key) Sample.forged_frame) in
  settle enc dec w 0 = set_inflight w [] /\
  enqueued (settle enc dec w 0) = [] /\
  console (settle enc dec w 0) = [].
Proof.
  intros w.
  destruct (authentication_failure_drops_frame Key enc dec w 0 full_key
              (drop 28 (data Sample.forged_frame))
              (take 27 (drop 1 (data Sample.forged_frame)))
              (take 1 (data Sample.forged_frame))
              Sample.forged_frame eq_refl eq_refl)
    as (Hsettle & Hout & Hlog & _).
  split; [exact Hsettle|]. split; [exact Hout | exact Hlog].
Defined.

(** C6 as stated fails on the forged frame: its decryption is refused, and
    after the promise has settled the worker is as it was before the frame
    arrived, but for the packet counter. The frame is not enqueued, and the
    failure is reported nowhere. *)
Lemma authentication_failure_counterexample :
  dec full_key (drop 28 (data Sample.forged_frame))
      (take 27 (drop 1 (data Sample.forged_frame))) = None /\
  run enc dec (first_install full_key) [ev_decode Sample.forged_frame; ev_settle 0]
  = set_rcount (first_install full_key) 1 /\
  console (run enc dec (first_install full_key)
             [ev_decode Sample.forged_frame; ev_settle 0]) = [].
Proof. repeat split. Qed.


(** C9 at a run with frames of both streams before and after a first key,
    a second setCryptoKey message and its key in between, a frame that fails
    authentication, and promises that settle in order within each stream
    though not across them. *)
Lemma oldest_first_preserves_order_witness :
  let es :=
    [ev_encode Sample.key_frame Sample.entropy;
     ev_message (operation_setCryptoKey (js_string "secret") true);
     ev_decode Sample.audio_frame;
     ev_key (key_fulfilled full_key);
     ev_encode Sample.delta_frame Sample.entropy;
     ev_decode Sample.forged_frame;
     ev_message (operation_setCryptoKey (js_string "secret") true);
     ev_encode Sample.short_key_frame Sample.entropy;
     ev_settle 1;
     ev_key (key_fulfilled full_key);
     ev_settle 0;
     ev_settle 0] in
  map timestamp (of_stream send (enqueued (run enc dec init es))) = [1; 2; 4] /\
  map timestamp (of_stream recv (enqueued (run enc dec init es))) = [3].
Proof.
  intros es.
  destruct (oldest_first_preserves_order Key enc dec [] es init) as [_ Hord].
  specialize (Hord eq_refl).
  destruct (Hord send) as [_ Hsend]. destruct (Hord recv) as [_ Hrecv].
  change (run enc dec init []) with (@init Key) in Hsend, Hrecv.
  rewrite (Hsend eq_refl eq_refl), (Hrecv eq_refl eq_refl).
  split; vm_compute; reflexivity.
Defined.

(** C9 as stated fails when the second promise settles before the first:
    the second frame is enqueued first. *)
Lemma out_of_order_counterexample :
  map (fun o => timestamp (snd o))
    (enqueued (run enc dec (first_install full_key)
                 [ev_encode Sample.key_frame Sample.entropy;
                  ev_encode Sample.delta_frame Sample.entropy;
                  ev_settle 1;
                  ev_settle 0]))
  = [2; 1].
Proof. reflexivity. Qed.

(** * Further runs on sample frames *)

Lemma stub_encrypt_length (k : Key) (iv p c : bytes) :
  enc k iv p = Some c -> byteLength c = byteLength p + 16.
Proof.
  unfold StubCrypto.encrypt. destruct (StubCrypto.usage_encrypt k); [|discriminate].
  intros [= <-]. rewrite byteLength_app. unfold byteLength, StubCrypto.tag.
  rewrite length_map, length_replicate. lia.
Qed.

Lemma stub_decrypt_short (k : Key) (iv c : bytes) :
  byteLength c < 16 -> dec k iv c = None.
Proof.
  intros Hlen. unfold StubCrypto.decrypt.
  destruct (Nat.leb_spec 16 (length c)) as [Hle|_].
  - unfold byteLength in Hlen. lia.
  - rewrite andb_false_r. reflexivity.
Qed.

(** A key frame of two bytes goes out in clear. *)
Lemma short_payload_sent_in_clear_witness :
  exists env tag,
    encrypt_frame enc dec full_key true Sample.entropy Sample.short_key_frame = Some env /\
    data env = data Sample.short_key_frame ++ tag
               ++ getRandomValues Sample.entropy (Uint8Array_new 12).
Proof.
  eexists.
  destruct (short_payload_sent_in_clear Key enc dec full_key true Sample.entropy
              Sample.short_key_frame _ 10 eq_refl
              ltac:(vm_compute; discriminate) eq_refl)
    as (tag & _ & Hdata).
  exists tag. split; [reflexivity | exact Hdata].
Defined.

(** A frame of type "empty" goes out in clear, followed by its ciphertext. *)
Lemma empty_type_payload_in_clear_witness :
  exists env ciphertext,
    encrypt_frame enc dec full_key true Sample.entropy Sample.empty_type_frame = Some env /\
    data env = data Sample.empty_type_frame ++ ciphertext
               ++ getRandomValues Sample.entropy (Uint8Array_new 12).
Proof.
  eexists.
  destruct (empty_type_payload_in_clear Key enc dec full_key Sample.entropy
              Sample.empty_type_frame _ eq_refl eq_refl)
    as ((ct & _ & Hdata) & _).
  exists ct. split; [reflexivity | exact Hdata].
Defined.

(** A key frame of 14 bytes makes an envelope of 42. *)
Lemma envelope_overhead_witness :
  exists env,
    encrypt_frame enc dec full_key true Sample.entropy Sample.key_frame = Some env /\
    byteLength (data env) = 14 + 28.
Proof.
  eexists. split; [vm_compute; reflexivity|].
  apply (envelope_overhead Key enc dec full_key true Sample.entropy
           Sample.key_frame _ 10).
  - intros iv p c. apply stub_encrypt_length.
  - reflexivity.
  - vm_compute. reflexivity.
Defined.

(** An audio frame of five bytes is never decoded. *)
Lemma short_envelope_rejected_witness :
  decrypt_frame enc dec full_key true Sample.audio_frame = None.
Proof.
  apply (short_envelope_rejected Key enc dec full_key true Sample.audio_frame 1).
  - intros iv c. apply stub_decrypt_short.
  - reflexivity.
  - vm_compute. reflexivity.
Defined.

(** The sealed key frame with its ten header bytes zeroed is accepted. *)
Lemma clear_header_not_authenticated_witness :
  exists env,
    encrypt_frame enc dec full_key true Sample.entropy Sample.key_frame = Some env /\
    decrypt_frame enc dec full_key true
      (set_data env (replicate 10 x00 ++ drop 10 (data env)))
    = Some (set_data Sample.key_frame
              (replicate 10 x00 ++ drop 10 (data Sample.key_frame))).
Proof.
  eexists. split; [vm_compute; reflexivity|].
  apply (clear_header_not_authenticated Key enc dec full_key true Sample.entropy
           Sample.key_frame _ 10 (replicate 10 x00)).
  - intros iv p c. apply stub_decrypt_encrypt. reflexivity.
  - reflexivity.
  - vm_compute. discriminate.
  - vm_compute. reflexivity.
  - reflexivity.
Defined.

(** The key frame of two bytes does not survive the round trip. *)
Lemma short_payload_breaks_roundtrip_witness :
  exists env,
    encrypt_frame enc dec full_key true Sample.entropy Sample.short_key_frame = Some env /\
    decrypt_frame enc dec full_key true env <> Some Sample.short_key_frame.
Proof.
  eexists. split; [vm_compute; reflexivity|].
  apply (short_payload_breaks_roundtrip Key enc dec full_key true Sample.entropy
           Sample.short_key_frame _ 10).
  - reflexivity.
  - vm_compute. reflexivity.
  - vm_compute. reflexivity.
Defined.

(** A key frame through both directions of one worker. *)
Lemma loopback_witness :
  exists env,
    encrypt_frame enc dec full_key true Sample.entropy Sample.key_frame = Some env /\
    enqueued (run enc dec (first_install full_key)
                [ev_encode Sample.key_frame Sample.entropy; ev_settle 0;
                 ev_decode env; ev_settle 0])
    = [(send, env); (recv, Sample.key_frame)].
Proof.
  eexists. split; [vm_compute; reflexivity|].
  destruct (loopback Key enc dec (first_install full_key) full_key Sample.entropy
              Sample.key_frame _ 10
              ltac:(intros iv p c; apply stub_decrypt_encrypt; reflexivity)
              eq_refl eq_refl eq_refl ltac:(vm_compute; discriminate) eq_refl)
    as (Hout & _ & _).
  exact Hout.
Defined.

(** Two more messages after the first installation: the identifier is 3. *)
Lemma identifier_counts_messages_witness :
  currentKeyIdentifier
    (run enc dec (first_install full_key)
       [ev_message (operation_setCryptoKey js_undefined false);
        ev_encode Sample.key_frame Sample.entropy;
        ev_message (operation_setCryptoKey (js_string "secret") true);
        ev_key (key_rejected "OperationError")])
  = 1 + 2.
Proof.
  exact (identifier_counts_messages Key enc dec
           [ev_message (operation_setCryptoKey js_undefined false);
            ev_encode Sample.key_frame Sample.entropy;
            ev_message (operation_setCryptoKey (js_string "secret") true);
            ev_key (key_rejected "OperationError")]
           (first_install full_key) (ex_intro _ full_key eq_refl)).
Defined.

(** A failed key generation after the first installation leaves a key. *)
Lemma key_stays_installed_witness :
  is_Some
    (currentCryptoKey
       (run enc dec (first_install full_key)
          [ev_message (operation_setCryptoKey js_undefined false);
           ev_key (key_rejected "OperationError");
           ev_decode Sample.forged_frame; ev_settle 0])).
Proof.
  exact (key_stays_installed Key enc dec
           [ev_message (operation_setCryptoKey js_undefined false);
            ev_key (key_rejected "OperationError");
            ev_decode Sample.forged_frame; ev_settle 0]
           (first_install full_key) (ex_intro _ full_key eq_refl)).
Defined.

(** Frames around a setCryptoKey message whose key generation fails. *)
Lemma transparent_until_key_witness :
  enqueued
    (run enc dec init
       [ev_encode Sample.key_frame Sample.entropy;
        ev_message (operation_setCryptoKey (js_string "secret") true);
        ev_decode Sample.audio_frame;
        ev_key (key_rejected "OperationError");
        ev_encode Sample.delta_frame Sample.entropy])
  = [(send, Sample.key_frame); (recv, Sample.audio_frame);
     (send, Sample.delta_frame)].
Proof.
  destruct (transparent_until_key Key enc dec
              [ev_encode Sample.key_frame Sample.entropy;
               ev_message (operation_setCryptoKey (js_string "secret") true);
               ev_decode Sample.audio_frame;
               ev_key (key_rejected "OperationError");
               ev_encode Sample.delta_frame Sample.entropy]
              init eq_refl eq_refl ltac:(repeat constructor))
    as (Hout & _ & _).
  exact Hout.
Defined.

(** The envelope of a key frame, enqueued after a first installation. *)
Lemma no_frame_invented_witness :
  exists g f,
    enqueued
      (run enc dec init
         [ev_message (operation_setCryptoKey (js_string "secret") true);
          ev_key (key_fulfilled full_key);
          ev_encode Sample.key_frame Sample.entropy; ev_settle 0])
    = [(send, g)] /\
    (send, f)
      ∈ omap submitted
          [ev_message (operation_setCryptoKey (js_string "secret") true);
           ev_key (key_fulfilled full_key);
           ev_encode Sample.key_frame Sample.entropy; ev_settle 0] /\
    metadata g = metadata f.
Proof.
  eexists.
  destruct (no_frame_invented Key enc dec
              [ev_message (operation_setCryptoKey (js_string "secret") true);
               ev_key (key_fulfilled full_key);
               ev_encode Sample.key_frame Sample.entropy; ev_settle 0]
              send _ ltac:(vm_compute; apply list_elem_of_here))
    as (f & Hin & Hmeta).
  exists f. split; [vm_compute; reflexivity|]. split; [exact Hin | exact Hmeta].
Defined.

(** Two workers that differ in their counters and identifier only. *)
Lemma counters_never_read_witness :
  observable
    (run enc dec (first_install full_key)
       [ev_encode Sample.key_frame Sample.entropy; ev_settle 0])
  = observable
      (run enc dec (set_rcount (set_scount (first_install full_key) 30) 99)
         [ev_encode Sample.key_frame Sample.entropy; ev_settle 0]).
Proof.
  exact (counters_never_read Key enc dec
           [ev_encode Sample.key_frame Sample.entropy; ev_settle 0]
           (first_install full_key)
           (set_rcount (set_scount (first_install full_key) 30) 99) eq_refl).
Defined.
